(** * Synonym dataset construction (notebooks/synonyms_wordnet.ipynb)

    A shallow embedding of the notebook's dataset pipeline:
    [_is_single_word], [get_syngraph_wordset] (the synonym graph builder)
    and [create_dataset] (the train/test splitter and the pair sampler).

    Modelling choices.
    - A word is a [string]; a synset is the list its [lemma_names()] returns.
    - [networkx.Graph] keeps a dict of dicts ([_adj]); Python dicts iterate in
      insertion order, and the order of [graph.edges] decides the split, so a
      graph is an association list from a node to its neighbours, both in
      insertion order.
    - The Python sets [train_words], [test_words], [intersection], ... are
      [gset string]; [list(s)] is [elements s].  Python's iteration order over
      a set of strings depends on the process's hash seed; no theorem below
      depends on the order of [elements].
    - A float ([train_test_component_ratio], a weight) is given by a rational
      and read as the nearest IEEE 754 double; the products that decide the
      split, [all_words_len*ratio] and [train_len*weights[pos]], are rounded
      to the nearest double as the code's are ([float], [float_mul]), and an
      integer is compared with a float exactly, as Python does.
    - [create_dataset] is a generator: it is a computation that threads the
      state of the pseudorandom generator, appends the records it yields and
      may stop with an exception.  What it prints is left out.
    - [random.random()] reads the next 53-bit integer off a tape that the
      seed fixes, and the index [int(random() * total)] is the integer part
      of the exact product; the theorems hold for every tape. *)

From Stdlib Require Import QArith Lqa Ascii String.
From stdpp Require Import gmap strings list.

Set Warnings "-clear-no-such-hyp".

Local Open Scope string_scope.
Local Open Scope nat_scope.
Local Open Scope list_scope.

(** ** The external edit distance

    [editdistance.eval] is the Levenshtein distance (unit-cost insertion,
    deletion and substitution). *)

Fixpoint levenshtein (s : list ascii) : list ascii → nat :=
  fix against (t : list ascii) : nat :=
    match s, t with
    | [], _ => length t
    | _, [] => length s
    | a :: s', b :: t' =>
        if decide (a = b) then levenshtein s' t'
        else S (levenshtein s' t `min` (against t' `min` levenshtein s' t'))
    end.

Definition editdistance_eval (w1 w2 : string) : nat :=
  levenshtein (list_ascii_of_string w1) (list_ascii_of_string w2).

(** ** The graph library: [networkx.Graph] *)

Module nx.

(** [_adj]: node ↦ neighbours, in insertion order. *)
Definition Graph := list (string * list string).

Definition empty : Graph := [].

(** [graph.nodes], in insertion order. *)
Definition nodes (G : Graph) : list string := G.*1.

Fixpoint lookup (G : Graph) (n : string) : option (list string) :=
  match G with
  | [] => None
  | (m, nbrs) :: G' => if decide (m = n) then Some nbrs else lookup G' n
  end.

(** [graph.neighbors(n)]; [None] stands for the [NetworkXError] raised when
    [n] is not a node. *)
Definition neighbors (G : Graph) (n : string) : option (list string) :=
  lookup G n.

(** [if n not in self._node: self._adj[n] = {}] *)
Definition add_node (G : Graph) (n : string) : Graph :=
  if decide (n ∈ nodes G) then G else G ++ [(n, [])].

(** [self._adj[u][v] = datadict]: a new key goes last, an old one stays. *)
Definition set_adj (u v : string) (G : Graph) : Graph :=
  (λ '(n, nbrs),
     if decide (n = u)
     then (n, if decide (v ∈ nbrs) then nbrs else nbrs ++ [v])
     else (n, nbrs)) <$> G.

Definition add_edge (G : Graph) (e : string * string) : Graph :=
  let '(u, v) := e in
  set_adj v u (set_adj u v (add_node (add_node G u) v)).

Definition add_edges_from (G : Graph) (ebunch : list (string * string)) : Graph :=
  foldl add_edge G ebunch.

(** [EdgeView.__iter__]: for every node in order, its neighbours that are
    not among the nodes already visited. *)
Fixpoint edges_from (seen : list string) (G : Graph) : list (string * string) :=
  match G with
  | [] => []
  | (n, nbrs) :: G' =>
      (pair n <$> filter (λ nbr, nbr ∉ seen) nbrs) ++ edges_from (n :: seen) G'
  end.

Definition edges (G : Graph) : list (string * string) := edges_from [] G.

(** What Python's dicts and the library's own methods maintain. *)
Definition wf (G : Graph) : Prop :=
  NoDup (nodes G) ∧ Forall (λ kv, NoDup kv.2) G.

#[global] Instance wf_dec G : Decision (wf G).
Proof. unfold wf. apply _. Defined.

(** [v] is a key of [_adj[u]]. *)
Definition has_edge (G : Graph) (u v : string) : Prop :=
  ∃ nbrs, lookup G u = Some nbrs ∧ v ∈ nbrs.

(** [graph.subgraph(nbunch)]: the view induced by the nodes of [nbunch] that
    are nodes of the graph; a node shows the neighbours that are among them.
    The order in which the view iterates is not fixed by the library and no
    statement depends on it. *)
Definition subgraph (G : Graph) (nbunch : list string) : Graph :=
  let ok := filter (λ n, n ∈ nodes G) nbunch in
  (λ kv, (kv.1, filter (λ nbr, nbr ∈ ok) kv.2)) <$> filter (λ kv, kv.1 ∈ ok) G.

End nx.

(** ** [itertools.combinations(l, 2)] *)

Fixpoint combinations2 {A} (l : list A) : list (A * A) :=
  match l with
  | [] => []
  | x :: l' => (pair x <$> l') ++ combinations2 l'
  end.

(** ** The graph builder *)

Fixpoint contains_char (c : ascii) (s : string) : bool :=
  match s with
  | EmptyString => false
  | String c' s' => bool_decide (c = c') || contains_char c s'
  end.

Definition _is_single_word (word : string) : bool :=
  negb (contains_char "_"%char word) && negb (contains_char "-"%char word).

(** A synset, as far as the builder looks at it: its [lemma_names()]. *)
Definition Synset := list string.

(** [[x for x in synset.lemma_names() if _is_single_word(x)]] *)
Definition lemma_names (synset : Synset) : list string :=
  filter (λ x, _is_single_word x = true) synset.

(** The body of the loop over the synsets of one part of speech. *)
Definition add_synset (G : nx.Graph) (synset : Synset) : nx.Graph :=
  if decide (1 < length (lemma_names synset))
  then nx.add_edges_from G (combinations2 (lemma_names synset))
  else G.

Definition syngraph (synsets : list Synset) : nx.Graph :=
  foldl add_synset nx.empty synsets.

Definition get_syngraph_wordset (pos_synsets : list (string * list Synset))
  : list (string * nx.Graph) :=
  (λ '(pos, synsets), (pos, syngraph synsets)) <$> pos_synsets.

(** ** Floats

    A Python float is an IEEE 754 double.  It is given here by a rational
    number, read as the double nearest to it, ties to even, as Python reads
    a literal; a product of two floats is the exact product rounded the same
    way.  The range of the exponent is bounded below (subnormal numbers) but
    not above: no ratio between 0 and 1 and no graph that fits in memory
    makes a product overflow. *)

(** [n/d] rounded to the nearest integer, ties to even, for [0 ≤ n], [0 < d]. *)
Definition round_half_even (n d : Z) : Z :=
  let q := (n / d)%Z in
  match (2 * (n `mod` d) ?= d)%Z with
  | Lt => q
  | Gt => (q + 1)%Z
  | Eq => if Z.even q then q else (q + 1)%Z
  end.

(** The fraction [(n/d) / 2^e]. *)
Definition scale2 (n d e : Z) : Z * Z :=
  if (0 <=? e)%Z then (n, (d * 2 ^ e)%Z) else ((n * 2 ^ (- e))%Z, d).

(** [⌊log2 (n/d)⌋] for [0 < n], [0 < d]. *)
Definition floor_log2 (n d : Z) : Z :=
  let l := (Z.log2 n - Z.log2 d)%Z in
  let '(n', d') := scale2 n d l in
  if (d' <=? n')%Z then l else (l - 1)%Z.

(** The double nearest to [n/d], for [0 < n], [0 < d]: 53 bits of mantissa,
    exponents from -1074 up. *)
Definition nearest_double (n d : Z) : Q :=
  let e := Z.max (floor_log2 n d - 52) (-1074) in
  let '(n', d') := scale2 n d e in
  let m := round_half_even n' d' in
  if (0 <=? e)%Z then inject_Z (m * 2 ^ e) else (m # Z.to_pos (2 ^ (- e))).

(** [float(x)]: the double that the rational [x] is read as. *)
Definition float (x : Q) : Q :=
  match Qnum x with
  | Z0 => 0%Q
  | Z.pos n => nearest_double (Z.pos n) (Z.pos (Qden x))
  | Z.neg n => (- nearest_double (Z.pos n) (Z.pos (Qden x)))%Q
  end.

(** [x * y] on floats. *)
Definition float_mul (x y : Q) : Q := float (float x * float y).

(** ** The pseudorandom generator

    The state of [random] is the tape of the 53-bit integers it will produce
    and a cursor on it; seeding fixes the tape. *)

Record rng := { tape : nat → N; cursor : nat }.

(** [int(x)] on a non-integer: truncation towards zero. *)
Definition int (x : Q) : Z := Z.quot (Qnum x) (Z.pos (Qden x)).

(** ** Records, exceptions and the generator monad *)

Record PairRecord := {
  word1 : string;
  word2 : string;
  synonym : nat;
  pos : string;
  split : string;
}.

#[global] Instance PairRecord_eq_dec : EqDecision PairRecord.
Proof. solve_decision. Defined.

Inductive Exception :=
  | KeyError (key : string)
  | IndexError
  | NetworkXError (n : string).

Inductive outcome (A : Type) :=
  | Returned (a : A)
  | Raised (e : Exception).
Arguments Returned {A} a.
Arguments Raised {A} e.

(** What a run of the generator leaves behind: the records yielded so far,
    the state of the pseudorandom generator, and how it ended. *)
Record run (A : Type) := {
  yielded : list PairRecord;
  state : rng;
  result : outcome A;
}.
Arguments yielded {A} r.
Arguments state {A} r.
Arguments result {A} r.

Definition Gen (A : Type) : Type := rng → run A.

#[global] Instance Gen_ret : MRet Gen := λ A a g,
  {| yielded := []; state := g; result := Returned a |}.

#[global] Instance Gen_bind : MBind Gen := λ A B f m g,
  let r := m g in
  match result r with
  | Returned a =>
      let r' := f a (state r) in
      {| yielded := yielded r ++ yielded r'; state := state r'; result := result r' |}
  | Raised e => {| yielded := yielded r; state := state r; result := Raised e |}
  end.

Definition raise {A} (e : Exception) : Gen A := λ g,
  {| yielded := []; state := g; result := Raised e |}.

Definition yield (r : PairRecord) : Gen () := λ g,
  {| yielded := [r]; state := g; result := Returned () |}.

(** [random.random()]: a 53-bit fraction in [0, 1). *)
Definition random : Gen Q := λ g,
  {| yielded := [];
     state := {| tape := tape g; cursor := S (cursor g) |};
     result := Returned (Z.of_N (tape g (cursor g) `mod` 2 ^ 53) # 2 ^ 53) |}.

(** A [for] loop whose body may yield and raise. *)
Fixpoint for_each {A} (l : list A) (body : A → Gen ()) : Gen () :=
  match l with
  | [] => mret ()
  | x :: l' => body x ;; for_each l' body
  end.

(** [random.choices(population, k=k)]:
    [[population[int(random() * total)] for i in range(k)]]. *)
Fixpoint choices (population : list string) (k : nat) : Gen (list string) :=
  match k with
  | 0 => mret []
  | S k' =>
      u ← random;
      match population !! Z.to_nat (int (u * inject_Z (Z.of_nat (length population)))) with
      | Some w => ws ← choices population k'; mret (w :: ws)
      | None => raise IndexError
      end
  end.

(** ** [create_dataset] *)

Definition weights : list (string * Q) :=
  [("verb", 1.15%Q); ("adjective", 1.0%Q); ("noun", 1.0%Q)].

Fixpoint dict_get {V} (d : list (string * V)) (key : string) : option V :=
  match d with
  | [] => None
  | (k, v) :: d' => if decide (k = key) then Some v else dict_get d' key
  end.

(** [weights[pos]] *)
Definition weight_of (pos : string) : Gen Q :=
  match dict_get weights pos with
  | Some w => mret w
  | None => raise (KeyError pos)
  end.

Record Split := {
  train_words : gset string;
  test_words : gset string;
  train_edges : list (string * string);
  test_edges : list (string * string);
}.

Definition empty_split : Split :=
  {| train_words := ∅; test_words := ∅; train_edges := []; test_edges := [] |}.

#[global] Instance Qlt_decision (x y : Q) : Decision (x < y)%Q :=
  decide (Qnum x * QDen y < Qnum y * QDen x)%Z.

(** [len(train_words) < train_len * w]: the product is a float, the
    comparison of the integer with it is exact. *)
Definition below_threshold (train_len : Z) (w : Q) (s : Split) : bool :=
  bool_decide (inject_Z (Z.of_nat (size (train_words s)))
               < float_mul (inject_Z train_len) w)%Q.

(** The body of the splitting loop, once the weight is known. *)
Definition route (train_len : Z) (w : Q) (s : Split) (e : string * string) : Split :=
  let '(x, y) := e in
  if below_threshold train_len w s
  then {| train_words := train_words s ∪ {[x; y]};
          test_words := test_words s;
          train_edges := train_edges s ++ [(x, y)];
          test_edges := test_edges s |}
  else {| train_words := train_words s;
          test_words := test_words s ∪ {[x; y]};
          train_edges := train_edges s;
          test_edges := test_edges s ++ [(x, y)] |}.

(** The splitting loop; [weights[pos]] is looked up at every edge. *)
Fixpoint split_loop (pos : string) (train_len : Z) (edges : list (string * string))
    (s : Split) : Gen Split :=
  match edges with
  | [] => mret s
  | e :: edges' =>
      w ← weight_of pos;
      split_loop pos train_len edges' (route train_len w s e)
  end.

Definition train_len_of (graph : nx.Graph) (train_test_component_ratio : Q) : Z :=
  let all_words_len := length (nx.nodes graph) in
  int (float_mul (inject_Z (Z.of_nat all_words_len)) train_test_component_ratio).

Definition split_graph (pos : string) (graph : nx.Graph)
    (train_test_component_ratio : Q) : Gen Split :=
  split_loop pos (train_len_of graph train_test_component_ratio)
    (nx.edges graph) empty_split.

Definition intersection (s : Split) : gset string := train_words s ∩ test_words s.
Definition train_sampling (s : Split) : gset string := train_words s ∖ intersection s.
Definition test_sampling (s : Split) : gset string := test_words s ∖ intersection s.

(** [graph.neighbors(w1)] inside the generator. *)
Definition neighbors_of (graph : nx.Graph) (w : string) : Gen (list string) :=
  match nx.neighbors graph w with
  | Some nbrs => mret nbrs
  | None => raise (NetworkXError w)
  end.

(** The candidate negatives of an edge starting at [w1]. *)
Definition neg_words_of (s : Split) (split : string) (w1 : string)
    (nbrs : list string) : list string :=
  let pos_words : gset string := list_to_set (w1 :: nbrs) in
  if decide (split = "train")
  then elements (train_sampling s ∖ pos_words)
  else elements (test_sampling s ∖ pos_words).

(** The body of the loop over the edges of one split. *)
Definition sample_edge (pos : string) (graph : nx.Graph) (s : Split)
    (negative_sampling_count : nat) (split : string) (e : string * string) : Gen () :=
  let '(w1, w2) := e in
  if decide (editdistance_eval w1 w2 < 2) then mret ()
  else if decide (w1 ∈ intersection s ∨ w2 ∈ intersection s) then mret ()
  else
    nbrs ← neighbors_of graph w1;
    neg_sampling ← choices (neg_words_of s split w1 nbrs) negative_sampling_count;
    yield {| word1 := w1; word2 := w2; synonym := 1; pos := pos; split := split |};;
    for_each neg_sampling (λ w3,
      yield {| word1 := w1; word2 := w3; synonym := 0; pos := pos; split := split |}).

(** The sampling loops over [zip([train_edges, test_edges], ['train', 'test'])]. *)
Definition sample_split (pos : string) (graph : nx.Graph) (s : Split)
    (negative_sampling_count : nat) : Gen () :=
  for_each [(train_edges s, "train"); (test_edges s, "test")] (λ '(data, split),
    for_each data (sample_edge pos graph s negative_sampling_count split)).

(** The body of the loop over the parts of speech. *)
Definition dataset_of_graph (train_test_component_ratio : Q)
    (negative_sampling_count : nat) (pos : string) (graph : nx.Graph) : Gen () :=
  s ← split_graph pos graph train_test_component_ratio;
  sample_split pos graph s negative_sampling_count.

Definition create_dataset (syn_graphs : list (string * nx.Graph))
    (train_test_component_ratio : Q) (negative_sampling_count : nat) : Gen () :=
  for_each syn_graphs (λ '(pos, graph),
    dataset_of_graph train_test_component_ratio negative_sampling_count pos graph).

(** ** [get_synsets]

    The corpus reader [wn.all_synsets] is a parameter: for a part-of-speech
    tag, the synsets of the corpus. *)

Definition default_part_of_speeches : list (string * string) :=
  [("verb", "v"); ("noun", "n"); ("adjective", "a")].

Definition get_synsets (all_synsets : string → list Synset)
    (part_of_speeches : option (list (string * string)))
  : list (string * list Synset) :=
  let part_of_speeches := default default_part_of_speeches part_of_speeches in
  (λ '(name, pos), (name, all_synsets pos)) <$> part_of_speeches.

(** ** [get_subgraph] *)

(** The loop that collects the nodes of [subset] and their neighbours. *)
Fixpoint subgraph_nodes (graph : nx.Graph) (subset : list string)
    (nodes : list string) : outcome (list string) :=
  match subset with
  | [] => Returned nodes
  | node :: subset' =>
      match nx.neighbors graph node with
      | Some nbrs => subgraph_nodes graph subset' (nodes ++ [node] ++ nbrs)
      | None => Raised (NetworkXError node)
      end
  end.

Definition get_subgraph (graph : nx.Graph) (subset : list string) : outcome nx.Graph :=
  match subgraph_nodes graph subset [] with
  | Returned nodes => Returned (nx.subgraph graph nodes)
  | Raised e => Raised e
  end.

Definition default_subset : list string := ["change"; "buy"].

(** * Vocabulary of the statements *)

(** [gen_post m P Q]: every record [m] yields satisfies [P], whether or not
    [m] ends in an exception, and the value [m] returns, if it returns,
    satisfies [Q]. *)
Definition gen_post {A} (m : Gen A) (P : PairRecord → Prop) (Q : A → Prop) : Prop :=
  ∀ g, Forall P (yielded (m g)) ∧ ∀ a, result (m g) = Returned a → Q a.

(** A computation that yields nothing, leaves the pseudorandom generator
    alone and returns [a]. *)
Definition returns {A} (a : A) : Gen A := mret a.

(** [runs m g out a g']: started in the state [g] of the pseudorandom
    generator, [m] yields [out], returns [a] and leaves the state [g']. *)
Definition runs {A} (m : Gen A) (g : rng) (out : list PairRecord) (a : A) (g' : rng) : Prop :=
  m g = {| yielded := out; state := g'; result := Returned a |}.

(** [raises m g out e]: started in the state [g], [m] yields [out] and
    then stops with the exception [e]. *)
Definition raises {A} (m : Gen A) (g : rng) (out : list PairRecord) (e : Exception) : Prop :=
  yielded (m g) = out ∧ result (m g) = Raised e.

(** The splitter returns [s] on the graph of the part of speech [c]. *)
Definition splits_as (c : string) (graph : nx.Graph) (ratio : Q) (s : Split) : Prop :=
  ∀ g, split_graph c graph ratio g = returns s g.

(** The words at the ends of a list of edges. *)
Definition endpoints (edges : list (string * string)) : gset string :=
  list_to_set edges.*1 ∪ list_to_set edges.*2.

(** The splitter's variables at the moment it processes the edge at
    position [i]: the loop has run over the [i] edges before it. *)
Definition loop_state (train_len : Z) (w : Q) (edges : list (string * string))
    (i : nat) : Split :=
  foldl (route train_len w) empty_split (take i edges).

(** The threshold as the specification words it: [r·m·|all_vertices|]. *)
Definition spec_threshold (r m : Q) (all_vertices : nat) : Q :=
  (r * m * inject_Z (Z.of_nat all_vertices))%Q.

(** The threshold the code compares with: [int(|all_vertices|·r)·m], both
    products being products of floats. *)
Definition code_threshold (r m : Q) (all_vertices : nat) : Q :=
  float_mul (inject_Z (int (float_mul (inject_Z (Z.of_nat all_vertices)) r))) m.

(** How the sampler comes to yield a record for the part of speech [c],
    its graph and its split [s]: from an edge of one of the two edge lists
    that passes both filters, either the edge itself, labelled 1, or the
    edge's first word with one of its candidate negatives, labelled 0. *)
Definition retained (s : Split) (sp : string) (w1 w2 : string) : Prop :=
  ((sp = "train" ∧ (w1, w2) ∈ train_edges s) ∨
   (sp = "test" ∧ (w1, w2) ∈ test_edges s)) ∧
  ¬ editdistance_eval w1 w2 < 2 ∧
  (w1 ∉ intersection s) ∧ (w2 ∉ intersection s).

Inductive emitted_by (c : string) (graph : nx.Graph) (s : Split) : PairRecord → Prop :=
  | emitted_positive sp w1 w2 :
      retained s sp w1 w2 →
      emitted_by c graph s
        {| word1 := w1; word2 := w2; synonym := 1; pos := c; split := sp |}
  | emitted_negative sp w1 w2 nbrs w3 :
      retained s sp w1 w2 →
      nx.neighbors graph w1 = Some nbrs →
      w3 ∈ neg_words_of s sp w1 nbrs →
      emitted_by c graph s
        {| word1 := w1; word2 := w3; synonym := 0; pos := c; split := sp |}.

(** The inputs of the worked examples. *)
Definition change_synsets : list Synset :=
  [["change"; "alter"; "modify"]; ["change"; "transform"]].

Definition size_synsets : list Synset :=
  [["big"; "large"]; ["small"; "little"]; ["little"; "tiny"]].

Definition run_synsets : list Synset :=
  [["run"; "runts"]; ["runts"; "runs"]].

Definition zero_tape : rng := {| tape := λ _, 0%N; cursor := 0 |}.

Definition run_positive : PairRecord :=
  {| word1 := "run"; word2 := "runts"; synonym := 1; pos := "noun"; split := "train" |}.

Definition run_negative : PairRecord :=
  {| word1 := "run"; word2 := "runs"; synonym := 0; pos := "noun"; split := "train" |}.

(** The split the loop computes once the weight [m] is known. *)
Definition split_of (m : Q) (graph : nx.Graph) (ratio : Q) : Split :=
  foldl (route (train_len_of graph ratio) m) empty_split (nx.edges graph).

(** An edge passes the two filters of the sampler. *)
Definition passes (s : Split) (e : string * string) : Prop :=
  ¬ editdistance_eval e.1 e.2 < 2 ∧ (e.1 ∉ intersection s) ∧ (e.2 ∉ intersection s).

#[global] Instance passes_dec s e : Decision (passes s e).
Proof. unfold passes. apply _. Defined.

(** The candidate negatives the sampler computes for an edge that starts at
    [w1], in the train or in the test split. *)
Definition pool (graph : nx.Graph) (s : Split) (sp : string) (w1 : string) : list string :=
  match nx.neighbors graph w1 with
  | Some nbrs => neg_words_of s sp w1 nbrs
  | None => []
  end.

(** The records of one edge: the edge, labelled 1, then its negatives. *)
Definition edge_records (c sp : string) (e : string * string) (ws : list string)
  : list PairRecord :=
  {| word1 := e.1; word2 := e.2; synonym := 1; pos := c; split := sp |} ::
  ((λ w3, {| word1 := e.1; word2 := w3; synonym := 0; pos := c; split := sp |}) <$> ws).

(** [out] is made of the records of the edges [edges], in order, each with
    [k] negatives out of its pool. *)
Definition shaped (c sp : string) (k : nat) (pool_of : string → list string)
    (edges : list (string * string)) (out : list PairRecord) : Prop :=
  ∃ wss, Forall2 (λ e ws, length ws = k ∧ Forall (.∈ pool_of e.1) ws) edges wss ∧
    out = concat (zip_with (edge_records c sp) edges wss).

(** [gen_exc m E Q]: if [m] returns, its value satisfies [Q]; if it raises,
    the exception satisfies [E]. *)
Definition gen_exc {A} (m : Gen A) (E : Exception → Prop) (Q : A → Prop) : Prop :=
  ∀ g, match result (m g) with Returned a => Q a | Raised e => E e end.

(** The nodes [get_subgraph] asks for: [subset] and its neighbours. *)
Definition in_region (graph : nx.Graph) (subset : list string) (x : string) : Prop :=
  x ∈ subset ∨ ∃ u, u ∈ subset ∧ nx.has_edge graph u x.

Definition ten_synsets : list Synset :=
  [["big"; "large"]; ["huge"; "vast"]; ["small"; "little"]; ["tiny"; "minute"];
   ["quick"; "fast"]].

Definition pairs_synsets : list Synset :=
  [["big"; "large"]; ["huge"; "vast"]; ["small"; "little"]; ["tiny"; "minute"]].

Definition big_positive : PairRecord :=
  {| word1 := "big"; word2 := "large"; synonym := 1; pos := "noun"; split := "train" |}.

Definition small_positive : PairRecord :=
  {| word1 := "small"; word2 := "little"; synonym := 1; pos := "noun"; split := "test" |}.

(** Two toy corpora: one whose nouns are the run synsets, one whose verbs
    are the change synsets. *)
Definition run_corpus (tag : string) : list Synset :=
  if decide (tag = "n") then run_synsets else [].

Definition change_corpus (tag : string) : list Synset :=
  if decide (tag = "v") then change_synsets else [].

(** * First checks *)

Example syngraph_abc :
  nx.edges (syngraph [["a"; "b"; "c"]]) = [("a", "b"); ("a", "c"); ("b", "c")].
Proof. vm_compute. reflexivity. Qed.

(** [graph.edges] groups the edges by their first node, in node order: it
    is not the order in which the edges were added. *)
Example edges_order :
  nx.edges (nx.add_edges_from nx.empty [("a", "b"); ("c", "d"); ("a", "e")])
  = [("a", "b"); ("a", "e"); ("c", "d")].
Proof. vm_compute. reflexivity. Qed.

(** The products of doubles round as the code's do: [int(3 * 0.3333333333333333)]
    is 1, [int(10 * 0.7)] is 7, [int(50 * 0.58)] is 28, and [100 * 1.15] is
    114.99999999999999. *)
Example float_products :
  int (float_mul 3 0.3333333333333333) = 1%Z ∧
  int (float_mul 10 0.7) = 7%Z ∧
  int (float_mul 50 0.58) = 28%Z ∧
  float_mul 100 1.15 = (8092405580431359 # 70368744177664)%Q ∧
  float 1.15 = (5179139571476070 # 4503599627370496)%Q.
Proof. vm_compute. done. Qed.

Example ed_run_runs : editdistance_eval "run" "runs" = 1.
Proof. reflexivity. Qed.

Example ed_kitten : editdistance_eval "kitten" "sitting" = 3.
Proof. vm_compute. reflexivity. Qed.

(** * Facts about the graph library *)

Section graph_facts.
Implicit Types (G : nx.Graph) (u v n m : string) (nbrs : list string).

Lemma lookup_nodes G n : is_Some (nx.lookup G n) ↔ n ∈ nx.nodes G.
Proof.
  unfold nx.nodes. induction G as [|[k x] G IH]; simpl.
  - split; [intros [? [=]] | intros ?%elem_of_nil; done].
  - case_decide as Hk; subst.
    + split; [intros _; left | eauto].
    + rewrite IH, elem_of_cons. naive_solver.
Qed.

Lemma lookup_None_nodes G n : nx.lookup G n = None ↔ n ∉ nx.nodes G.
Proof. rewrite <- lookup_nodes, eq_None_not_Some. done. Qed.

Lemma lookup_app G G' n :
  nx.lookup (G ++ G') n =
  match nx.lookup G n with Some x => Some x | None => nx.lookup G' n end.
Proof.
  induction G as [|[k x] G IH]; simpl; [done|]. by case_decide.
Qed.

Lemma nodes_set_adj u v G : nx.nodes (nx.set_adj u v G) = nx.nodes G.
Proof.
  unfold nx.nodes, nx.set_adj. rewrite <- list_fmap_compose.
  apply list_fmap_ext. intros i [k x] _. simpl. by case_decide.
Qed.

Lemma lookup_set_adj u v G n :
  nx.lookup (nx.set_adj u v G) n =
  (λ nbrs, if decide (n = u)
           then if decide (v ∈ nbrs) then nbrs else nbrs ++ [v]
           else nbrs) <$> nx.lookup G n.
Proof.
  induction G as [|[k x] G IH]; simpl; [done|].
  destruct (decide (k = u)) as [->|Hku]; simpl.
  - destruct (decide (u = n)) as [->|]; simpl; [|done].
    by destruct (decide (n = n)).
  - destruct (decide (k = n)) as [->|]; simpl; [|done].
    by destruct (decide (n = u)).
Qed.

Lemma nodes_add_node G n m :
  m ∈ nx.nodes (nx.add_node G n) ↔ m ∈ nx.nodes G ∨ m = n.
Proof.
  unfold nx.add_node. case_decide.
  - set_solver.
  - unfold nx.nodes. rewrite fmap_app. set_solver.
Qed.

Lemma has_edge_add_node G n u v :
  nx.has_edge (nx.add_node G n) u v ↔ nx.has_edge G u v.
Proof.
  unfold nx.add_node. case_decide; [done|].
  unfold nx.has_edge. setoid_rewrite lookup_app. simpl.
  split; intros (nbrs & Hl & Hv).
  - destruct (nx.lookup G u); [eauto|].
    case_decide; simplify_eq. set_solver.
  - exists nbrs. by rewrite Hl.
Qed.

Lemma has_edge_set_adj u v G a b :
  nx.has_edge (nx.set_adj u v G) a b ↔
  nx.has_edge G a b ∨ (a = u ∧ b = v ∧ u ∈ nx.nodes G).
Proof.
  unfold nx.has_edge. setoid_rewrite lookup_set_adj.
  rewrite <- lookup_nodes. split.
  - intros (nbrs & Hl & Hb).
    destruct (nx.lookup G a) as [x|] eqn:Ha; simplify_eq/=.
    repeat case_decide; subst; try (left; by eauto).
    apply elem_of_app in Hb as [Hb|Hb%list_elem_of_singleton]; [left; by eauto|].
    right. rewrite Ha. eauto.
  - intros [(nbrs & Hl & Hb)|(-> & -> & [x Hx])].
    + rewrite Hl. simpl. eexists; split; [done|].
      repeat case_decide; set_solver.
    + rewrite Hx. simpl. eexists; split; [done|].
      rewrite decide_True by done. case_decide; set_solver.
Qed.

Lemma nodes_add_edge G u v m :
  m ∈ nx.nodes (nx.add_edge G (u, v)) ↔ m ∈ nx.nodes G ∨ m = u ∨ m = v.
Proof.
  unfold nx.add_edge. rewrite !nodes_set_adj, !nodes_add_node. tauto.
Qed.

Lemma has_edge_add_edge G u v a b :
  nx.has_edge (nx.add_edge G (u, v)) a b ↔
  nx.has_edge G a b ∨ (a = u ∧ b = v) ∨ (a = v ∧ b = u).
Proof.
  unfold nx.add_edge.
  rewrite !has_edge_set_adj, !nodes_set_adj, !has_edge_add_node, !nodes_add_node.
  tauto.
Qed.

Lemma nodes_add_edges_from G es m :
  m ∈ nx.nodes (nx.add_edges_from G es) ↔
  m ∈ nx.nodes G ∨ ∃ e, e ∈ es ∧ (m = e.1 ∨ m = e.2).
Proof.
  unfold nx.add_edges_from. revert G.
  induction es as [|[u v] es IH]; intros G; cbn [foldl].
  - set_solver.
  - rewrite IH, nodes_add_edge. set_solver.
Qed.

Lemma has_edge_add_edges_from G es a b :
  nx.has_edge (nx.add_edges_from G es) a b ↔
  nx.has_edge G a b ∨ (a, b) ∈ es ∨ (b, a) ∈ es.
Proof.
  unfold nx.add_edges_from. revert G.
  induction es as [|[u v] es IH]; intros G; cbn [foldl].
  - set_solver.
  - rewrite IH, has_edge_add_edge. set_solver.
Qed.

End graph_facts.

Section graph_wf.
Implicit Types (G : nx.Graph) (u v n m : string).

Lemma wf_empty : nx.wf nx.empty.
Proof. split; [apply NoDup_nil_2 | apply Forall_nil_2]. Qed.

Lemma wf_add_node G n : nx.wf G → nx.wf (nx.add_node G n).
Proof.
  intros [Hn Hf]. unfold nx.add_node. case_decide; [done|]. split.
  - unfold nx.nodes in *. rewrite fmap_app. apply NoDup_app.
    split_and!; [done| |apply NoDup_singleton].
    intros x Hx ->%list_elem_of_singleton. done.
  - apply Forall_app. split; [done|].
    apply Forall_singleton. apply NoDup_nil_2.
Qed.

Lemma wf_set_adj u v G : nx.wf G → nx.wf (nx.set_adj u v G).
Proof.
  intros [Hn Hf]. split; [by rewrite nodes_set_adj|].
  unfold nx.set_adj. apply Forall_fmap.
  eapply Forall_impl; [exact Hf|]. intros [k x] Hx. simpl in *.
  repeat case_decide; simpl; try done.
  apply NoDup_app. split_and!; [done| |apply NoDup_singleton].
  intros y Hy ->%list_elem_of_singleton. done.
Qed.

Lemma wf_add_edge G e : nx.wf G → nx.wf (nx.add_edge G e).
Proof.
  destruct e as [u v]. intros HG. unfold nx.add_edge.
  by do 2 apply wf_set_adj; do 2 apply wf_add_node.
Qed.

Lemma wf_add_edges_from G es : nx.wf G → nx.wf (nx.add_edges_from G es).
Proof.
  unfold nx.add_edges_from. revert G.
  induction es as [|e es IH]; intros G HG; cbn [foldl]; [done|].
  by apply IH, wf_add_edge.
Qed.

End graph_wf.

(** * Facts about [combinations] *)

Section combinations_facts.
Context {A : Type}.
Implicit Types (l : list A) (a b : A).

Lemma elem_of_combinations2 l a b :
  (a, b) ∈ combinations2 l ↔
  ∃ i j, i < j ∧ l !! i = Some a ∧ l !! j = Some b.
Proof.
  induction l as [|x l IH]; simpl.
  - split; [by intros ?%elem_of_nil | by intros (i & j & _ & [=] & _)].
  - rewrite elem_of_app, list_elem_of_fmap, IH. split.
    + intros [(y & [= -> ->] & (j & Hj)%list_elem_of_lookup)
             |(i & j & Hij & Hi & Hj)].
      * exists 0, (S j). split_and!; [lia|done|done].
      * exists (S i), (S j). split_and!; [lia|done|done].
    + intros (i & j & Hij & Hi & Hj).
      destruct j as [|j]; [lia|]. destruct i as [|i]; simplify_eq/=.
      * left. exists b. split; [done|]. by eapply list_elem_of_lookup_2.
      * right. exists i, j. split_and!; [lia|done|done].
Qed.

Lemma combinations2_short l : length l < 2 → combinations2 l = [].
Proof. destruct l as [|x [|y l]]; simpl; [done|done|lia]. Qed.

Lemma combinations2_elem_of l a b :
  (a, b) ∈ combinations2 l → a ∈ l ∧ b ∈ l.
Proof.
  rewrite elem_of_combinations2. intros (i & j & _ & Hi & Hj).
  split; by eapply list_elem_of_lookup_2.
Qed.

Lemma combinations2_NoDup l a b :
  NoDup l → (a, b) ∈ combinations2 l → a ≠ b.
Proof.
  rewrite elem_of_combinations2. intros Hl (i & j & Hij & Hi & Hj) ->.
  pose proof (NoDup_lookup _ _ _ _ Hl Hi Hj). lia.
Qed.

(** Two forms at different positions are paired, one way round. *)
Lemma combinations2_pair l i j a b :
  i ≠ j → l !! i = Some a → l !! j = Some b →
  (a, b) ∈ combinations2 l ∨ (b, a) ∈ combinations2 l.
Proof.
  intros Hij Hi Hj. rewrite !elem_of_combinations2.
  destruct (decide (i < j)); [left|right]; eexists _, _;
    (split_and!; [|done|done]); lia.
Qed.

Lemma combinations2_covers l a :
  1 < length l → a ∈ l →
  ∃ e, e ∈ combinations2 l ∧ (a = e.1 ∨ a = e.2).
Proof.
  intros Hlen (i & Hi)%list_elem_of_lookup.
  destruct (decide (i = 0)) as [->|].
  - destruct (lookup_lt_is_Some_2 l 1) as [b Hb]; [lia|].
    exists (a, b). split; [|by left].
    apply elem_of_combinations2. exists 0, 1. split_and!; [lia|done|done].
  - destruct (lookup_lt_is_Some_2 l 0) as [b Hb]; [lia|].
    exists (b, a). split; [|by right].
    apply elem_of_combinations2. exists 0, i. split_and!; [lia|done|done].
Qed.

End combinations_facts.

(** * Facts about [graph.edges] *)

Section edges_facts.
Implicit Types (G : nx.Graph) (u v n m : string) (seen : list string).

Lemma elem_of_edges_from seen G u v :
  (u, v) ∈ nx.edges_from seen G ↔
  ∃ i nbrs, G !! i = Some (u, nbrs) ∧ v ∈ nbrs ∧ (v ∉ seen) ∧
            v ∉ nx.nodes (take i G).
Proof.
  revert seen. induction G as [|[n x] G IH]; intros seen; simpl.
  - split; [by intros ?%elem_of_nil | by intros (i & nbrs & [=] & _)].
  - rewrite elem_of_app, list_elem_of_fmap, IH. split.
    + intros [(y & [= -> ->] & [Hy1 Hy2]%list_elem_of_filter)
             |(i & nbrs & Hi & Hv & Hs & Ht)].
      * exists 0, x. split_and!; try done. simpl. apply not_elem_of_nil.
      * exists (S i), nbrs. split_and!; try done; set_solver.
    + intros (i & nbrs & Hi & Hv & Hs & Ht). destruct i as [|i]; simplify_eq/=.
      * left. exists v. split; [done|]. by apply list_elem_of_filter.
      * right. exists i, nbrs. split_and!; try done; set_solver.
Qed.

Lemma elem_of_edges G u v :
  (u, v) ∈ nx.edges G ↔
  ∃ i nbrs, G !! i = Some (u, nbrs) ∧ v ∈ nbrs ∧ v ∉ nx.nodes (take i G).
Proof.
  unfold nx.edges. rewrite elem_of_edges_from.
  split; intros (i & nbrs & ?); exists i, nbrs; set_solver.
Qed.

Lemma lookup_index G u nbrs :
  nx.lookup G u = Some nbrs →
  ∃ i, G !! i = Some (u, nbrs) ∧ u ∉ nx.nodes (take i G).
Proof.
  induction G as [|[k x] G IH]; simpl; [done|].
  case_decide as Hk.
  - intros [= ->]. subst. exists 0. split; [done|]. simpl. apply not_elem_of_nil.
  - intros (i & Hi & Hu)%IH. exists (S i). split; [done|]. set_solver.
Qed.

Lemma index_lookup G i u nbrs :
  NoDup (nx.nodes G) → G !! i = Some (u, nbrs) → nx.lookup G u = Some nbrs.
Proof.
  revert i. induction G as [|[k x] G IH]; intros i Hnd Hi; [done|].
  unfold nx.nodes in Hnd. rewrite fmap_cons in Hnd.
  apply NoDup_cons in Hnd as [Hk Hnd]. simpl.
  destruct i as [|i]; simplify_eq/=.
  - by rewrite decide_True.
  - rewrite decide_False; [by eapply IH|].
    intros ->. apply Hk. apply list_elem_of_fmap.
    exists (u, nbrs). split; [done|]. by eapply list_elem_of_lookup_2.
Qed.

(** Every edge yielded is an adjacency. *)
Lemma edges_has_edge G u v :
  nx.wf G → (u, v) ∈ nx.edges G → nx.has_edge G u v.
Proof.
  intros [Hnd _] (i & nbrs & Hi & Hv & _)%elem_of_edges.
  exists nbrs. split; [by eapply index_lookup|done].
Qed.

(** Every symmetric adjacency is yielded, one way round. *)
Lemma has_edge_edges G u v :
  nx.has_edge G u v → nx.has_edge G v u →
  (u, v) ∈ nx.edges G ∨ (v, u) ∈ nx.edges G.
Proof.
  intros (x & (i & Hi & Hui)%lookup_index & Hv)
         (y & (j & Hj & Hvj)%lookup_index & Hu).
  rewrite !elem_of_edges.
  destruct (decide (v ∈ nx.nodes (take i G))) as [Hin|Hout].
  - right. exists j, y. split_and!; [done|done|].
    assert (j < i) as Hji.
    { destruct (decide (j < i)); [done|]. exfalso. apply Hvj.
      rewrite <- (take_drop i (take j G)), take_take, Nat.min_l by lia.
      unfold nx.nodes in *. rewrite fmap_app. set_solver. }
    intros Hu'. apply Hui.
    rewrite <- (take_drop j (take i G)), take_take, Nat.min_l by lia.
    unfold nx.nodes in *. rewrite fmap_app. set_solver.
  - left. by exists i, x.
Qed.

(** An edge is never yielded both ways round. *)
Lemma edges_one_way G u v :
  (u, v) ∈ nx.edges G → (v, u) ∈ nx.edges G → u = v.
Proof.
  intros (i & x & Hi & _ & Hvi)%elem_of_edges
         (j & y & Hj & _ & Huj)%elem_of_edges.
  assert (∀ i j a b x y, i < j → G !! i = Some (a, x) → G !! j = Some (b, y) →
            a ∈ nx.nodes (take j G)) as Hlt.
  { clear. intros i j a b x y Hij Hi Hj. unfold nx.nodes.
    apply list_elem_of_fmap. exists (a, x). split; [done|].
    apply list_elem_of_lookup. exists i. by rewrite lookup_take_lt. }
  destruct (lt_eq_lt_dec i j) as [[Hij| ->]|Hij].
  - destruct Huj. by eapply Hlt.
  - by simplify_eq.
  - destruct Hvi. by eapply Hlt.
Qed.

Lemma edges_from_nodes seen G u v :
  (u, v) ∈ nx.edges_from seen G → u ∈ nx.nodes G.
Proof.
  intros (i & x & Hi & _)%elem_of_edges_from. unfold nx.nodes.
  apply list_elem_of_fmap. exists (u, x). split; [done|].
  by eapply list_elem_of_lookup_2.
Qed.

Lemma NoDup_edges_from seen G : nx.wf G → NoDup (nx.edges_from seen G).
Proof.
  intros [Hnd Hf]. revert seen.
  induction G as [|[n x] G IH]; intros seen; simpl; [apply NoDup_nil_2|].
  unfold nx.nodes in Hnd. rewrite fmap_cons in Hnd.
  apply NoDup_cons in Hnd as [Hn Hnd]. apply Forall_cons in Hf as [Hx Hf].
  apply NoDup_app. split_and!.
  - apply (NoDup_fmap_2 _). by apply NoDup_filter.
  - intros [a b] (y & [= -> ->] & _)%list_elem_of_fmap Hin.
    by apply edges_from_nodes in Hin.
  - by apply IH.
Qed.

(** No parallel edges: [graph.edges] yields every edge once. *)
Lemma NoDup_edges G : nx.wf G → NoDup (nx.edges G).
Proof. apply NoDup_edges_from. Qed.

End edges_facts.

(** * Facts about the graph builder *)

Section builder_facts.
Implicit Types (G : nx.Graph) (a b m : string) (synset : Synset).

Lemma has_edge_empty a b : ¬ nx.has_edge nx.empty a b.
Proof. by intros (x & [=] & _). Qed.

Lemma has_edge_add_synset G synset a b :
  nx.has_edge (add_synset G synset) a b ↔
  nx.has_edge G a b ∨
  (a, b) ∈ combinations2 (lemma_names synset) ∨
  (b, a) ∈ combinations2 (lemma_names synset).
Proof.
  unfold add_synset. case_decide.
  - apply has_edge_add_edges_from.
  - rewrite combinations2_short by lia. set_solver.
Qed.

Lemma nodes_add_synset G synset m :
  m ∈ nx.nodes (add_synset G synset) ↔
  m ∈ nx.nodes G ∨ (1 < length (lemma_names synset) ∧ m ∈ lemma_names synset).
Proof.
  unfold add_synset. case_decide as Hlen; [|tauto].
  rewrite nodes_add_edges_from. split; (intros [?|Hm]; [by left|right]).
  - destruct Hm as ([x y] & [??]%combinations2_elem_of & [->| ->]); done.
  - destruct Hm as [_ Hm]. by apply combinations2_covers.
Qed.

Lemma wf_add_synset G synset : nx.wf G → nx.wf (add_synset G synset).
Proof.
  intros HG. unfold add_synset. case_decide; [|done].
  by apply wf_add_edges_from.
Qed.

Lemma has_edge_foldl_add_synset G synsets a b :
  nx.has_edge (foldl add_synset G synsets) a b ↔
  nx.has_edge G a b ∨
  ∃ synset, synset ∈ synsets ∧
    ((a, b) ∈ combinations2 (lemma_names synset) ∨
     (b, a) ∈ combinations2 (lemma_names synset)).
Proof.
  revert G. induction synsets as [|s synsets IH]; intros G; cbn [foldl].
  - set_solver.
  - rewrite IH, has_edge_add_synset. set_solver.
Qed.

Lemma nodes_foldl_add_synset G synsets m :
  m ∈ nx.nodes (foldl add_synset G synsets) ↔
  m ∈ nx.nodes G ∨
  ∃ synset, synset ∈ synsets ∧
    1 < length (lemma_names synset) ∧ m ∈ lemma_names synset.
Proof.
  revert G. induction synsets as [|s synsets IH]; intros G; cbn [foldl].
  - set_solver.
  - rewrite IH, nodes_add_synset. set_solver.
Qed.

Lemma wf_syngraph synsets : nx.wf (syngraph synsets).
Proof.
  unfold syngraph. generalize wf_empty. generalize nx.empty.
  induction synsets as [|s synsets IH]; intros G HG; cbn [foldl]; [done|].
  by apply IH, wf_add_synset.
Qed.

(** The adjacency of the built graph: two forms are neighbours exactly
    when they stand at two different positions of one synset's filtered
    lemma names. *)
Lemma has_edge_syngraph synsets a b :
  nx.has_edge (syngraph synsets) a b ↔
  ∃ synset i j, synset ∈ synsets ∧ i ≠ j ∧
    lemma_names synset !! i = Some a ∧ lemma_names synset !! j = Some b.
Proof.
  unfold syngraph. rewrite has_edge_foldl_add_synset. split.
  - intros [[]%has_edge_empty|(s & Hs & Hab)].
    destruct Hab as [(i & j & ? & ? & ?)%elem_of_combinations2
                    |(i & j & ? & ? & ?)%elem_of_combinations2].
    + exists s, i, j. split_and!; [done|lia|done|done].
    + exists s, j, i. split_and!; [done|lia|done|done].
  - intros (s & i & j & Hs & Hij & Hi & Hj). right. exists s. split; [done|].
    by eapply combinations2_pair.
Qed.

Lemma nodes_syngraph synsets m :
  m ∈ nx.nodes (syngraph synsets) ↔
  ∃ synset, synset ∈ synsets ∧
    1 < length (lemma_names synset) ∧ m ∈ lemma_names synset.
Proof.
  unfold syngraph. rewrite nodes_foldl_add_synset.
  split; [intros [[]%elem_of_nil|]|]; eauto.
Qed.

Lemma has_edge_syngraph_sym synsets a b :
  nx.has_edge (syngraph synsets) a b → nx.has_edge (syngraph synsets) b a.
Proof.
  rewrite !has_edge_syngraph. intros (s & i & j & ? & ? & ? & ?).
  exists s, j, i. split_and!; done.
Qed.

Lemma contains_char_spec ch word :
  contains_char ch word = true ↔ ch ∈ list_ascii_of_string word.
Proof.
  induction word as [|ch' word IH]; simpl.
  - split; [done|by intros ?%elem_of_nil].
  - rewrite orb_true_iff, IH, bool_decide_eq_true, elem_of_cons. done.
Qed.

Lemma is_single_word_spec word :
  _is_single_word word = true ↔
  ("_"%char ∉ list_ascii_of_string word) ∧ ("-"%char ∉ list_ascii_of_string word).
Proof.
  unfold _is_single_word.
  rewrite andb_true_iff, !negb_true_iff, <- !not_true_iff_false.
  by rewrite !contains_char_spec.
Qed.

Lemma elem_of_lemma_names synset m :
  m ∈ lemma_names synset ↔
  m ∈ synset ∧
  ("_"%char ∉ list_ascii_of_string m) ∧ ("-"%char ∉ list_ascii_of_string m).
Proof.
  unfold lemma_names. rewrite list_elem_of_filter, is_single_word_spec. tauto.
Qed.

End builder_facts.

(** * Reasoning about generators *)

Section generator_logic.
Implicit Types (P : PairRecord → Prop).

Lemma gen_post_ret {A} P (Q : A → Prop) a : Q a → gen_post (mret a) P Q.
Proof. intros Ha g. split; [apply Forall_nil_2|]. by intros ? [= <-]. Qed.

Lemma gen_post_raise {A} P (Q : A → Prop) e : gen_post (raise e) P Q.
Proof. intros g. split; [apply Forall_nil_2|]. by intros ? [=]. Qed.

Lemma gen_post_yield P r : P r → gen_post (yield r) P (λ _, True).
Proof. intros Hr g. split; [by apply Forall_singleton|done]. Qed.

Lemma gen_post_random P : gen_post random P (λ _, True).
Proof. intros g. split; [apply Forall_nil_2|done]. Qed.

Lemma gen_post_bind {A B} P (Q : A → Prop) (R : B → Prop) (m : Gen A) (f : A → Gen B) :
  gen_post m P Q → (∀ a, Q a → gen_post (f a) P R) → gen_post (m ≫= f) P R.
Proof.
  intros Hm Hf g. destruct (Hm g) as [Hy Hr].
  unfold mbind, Gen_bind. cbv zeta.
  destruct (result (m g)) as [a|e] eqn:Hres; simpl.
  - destruct (Hf a (Hr a eq_refl) (state (m g))) as [Hy' Hr'].
    split; [by apply Forall_app|done].
  - split; [done|]. by intros ? [=].
Qed.

Lemma gen_post_mono {A} P P' (Q Q' : A → Prop) (m : Gen A) :
  gen_post m P Q → (∀ r, P r → P' r) → (∀ a, Q a → Q' a) → gen_post m P' Q'.
Proof.
  intros Hm HP HQ g. destruct (Hm g) as [Hy Hr].
  split; [by eapply Forall_impl|eauto].
Qed.

Lemma gen_post_for_each {A} P (l : list A) (body : A → Gen ()) :
  (∀ x, x ∈ l → gen_post (body x) P (λ _, True)) →
  gen_post (for_each l body) P (λ _, True).
Proof.
  induction l as [|x l IH]; intros Hbody; simpl.
  - by apply gen_post_ret.
  - eapply gen_post_bind; [apply Hbody; left|].
    intros _ _. apply IH. intros y Hy. apply Hbody. by right.
Qed.

End generator_logic.

Lemma gen_post_choices P population k :
  gen_post (choices population k) P (λ ws, Forall (.∈ population) ws ∧ length ws = k).
Proof.
  induction k as [|k IH]; simpl.
  - by apply gen_post_ret.
  - eapply gen_post_bind; [apply gen_post_random|]. intros u _.
    destruct (population !! _) as [w|] eqn:Hw; [|apply gen_post_raise].
    eapply gen_post_bind; [apply IH|]. intros ws [Hws Hlen].
    apply gen_post_ret. split; [|by rewrite length_cons, Hlen].
    apply Forall_cons. split; [by eapply list_elem_of_lookup_2|done].
Qed.

(** An empty population makes [random.choices] raise, unless [k = 0]. *)
Lemma choices_empty k g :
  k ≠ 0 →
  yielded (choices [] k g) = [] ∧ result (choices [] k g) = Raised IndexError.
Proof. destruct k; [done|]. intros _. done. Qed.

(** * Facts about the splitter *)

Section splitter_facts.
Implicit Types (s : Split) (e : string * string) (edges : list (string * string)).

Lemma split_loop_weighted c w train_len edges s g :
  dict_get weights c = Some w →
  split_loop c train_len edges s g = returns (foldl (route train_len w) s edges) g.
Proof.
  intros Hw. revert s. induction edges as [|e edges IH]; intros s; simpl; [done|].
  unfold mbind, Gen_bind, weight_of. rewrite Hw. simpl. rewrite IH. done.
Qed.

Lemma split_loop_unweighted c train_len e edges s g :
  dict_get weights c = None →
  split_loop c train_len (e :: edges) s g = raise (KeyError c) g.
Proof.
  intros Hw. simpl. unfold mbind, Gen_bind, weight_of. by rewrite Hw.
Qed.

End splitter_facts.

Section split_prefix.
Variables (train_len : Z) (w : Q).
Implicit Types (s : Split) (e : string * string) (edges : list (string * string)).

Lemma endpoints_snoc edges e :
  endpoints (edges ++ [e]) = endpoints edges ∪ {[e.1; e.2]}.
Proof. unfold endpoints. rewrite !fmap_app. set_solver. Qed.

Lemma below_threshold_ext s s' :
  train_words s = train_words s' →
  below_threshold train_len w s = below_threshold train_len w s'.
Proof. unfold below_threshold. by intros ->. Qed.

Lemma loop_state_snoc edges e i :
  i ≤ length edges →
  loop_state train_len w (edges ++ [e]) i = loop_state train_len w edges i.
Proof. intros Hi. unfold loop_state. by rewrite take_app_le. Qed.

Lemma loop_state_all edges :
  loop_state train_len w edges (length edges) =
  foldl (route train_len w) empty_split edges.
Proof. unfold loop_state. by rewrite firstn_all. Qed.

Lemma route_train s x y :
  below_threshold train_len w s = true →
  route train_len w s (x, y) =
  {| train_words := train_words s ∪ {[x; y]}; test_words := test_words s;
     train_edges := train_edges s ++ [(x, y)]; test_edges := test_edges s |}.
Proof. unfold route. by intros ->. Qed.

Lemma route_test s x y :
  below_threshold train_len w s = false →
  route train_len w s (x, y) =
  {| train_words := train_words s; test_words := test_words s ∪ {[x; y]};
     train_edges := train_edges s; test_edges := test_edges s ++ [(x, y)] |}.
Proof. unfold route. by intros ->. Qed.

(** The loop cuts the edge list in two: a prefix goes to train, the rest
    to test, and the cut is where the threshold test first fails. *)
Lemma split_prefix edges :
  let s := foldl (route train_len w) empty_split edges in
  ∃ j, j ≤ length edges ∧
    train_edges s = take j edges ∧ test_edges s = drop j edges ∧
    train_words s = endpoints (take j edges) ∧
    test_words s = endpoints (drop j edges) ∧
    (j < length edges → below_threshold train_len w s = false) ∧
    ∀ i, i < length edges →
      (i < j ↔ below_threshold train_len w (loop_state train_len w edges i) = true).
Proof.
  induction edges as [|e edges IH] using rev_ind; simpl.
  - exists 0. split_and!; try done; try (simpl; lia).
  - rewrite foldl_app. cbn [foldl].
    destruct IH as (j & Hj & Htr & Hte & Htw & Htew & Hstop & Hiff).
    set (s := foldl (route train_len w) empty_split edges) in *.
    rewrite length_app. simpl.
    destruct e as [x y].
    destruct (below_threshold train_len w s) eqn:Hb;
      [rewrite route_train by done|rewrite route_test by done]; simpl.
    + assert (j = length edges) as -> by (destruct (decide (j < length edges)) as [?%Hstop|]; [done|lia]).
      rewrite firstn_all in Htr, Htw. rewrite drop_all in Hte, Htew.
      exists (S (length edges)).
      rewrite take_ge by (rewrite length_app; simpl; lia).
      rewrite drop_ge by (rewrite length_app; simpl; lia).
      split_and!; [lia|by rewrite Htr|done| |done|lia|].
      * rewrite endpoints_snoc, Htw. done.
      * intros i Hi. split; [intros _|lia].
        destruct (decide (i = length edges)) as [->|].
        -- rewrite loop_state_snoc, loop_state_all by lia. done.
        -- rewrite loop_state_snoc by lia. apply Hiff; lia.
    + exists j. rewrite take_app_le, drop_app_le by lia.
      split_and!; [lia|done|by rewrite Hte|done| | |].
      * rewrite endpoints_snoc, Htew. done.
      * intros _. rewrite <- Hb. by apply below_threshold_ext.
      * intros i Hi.
        destruct (decide (i = length edges)) as [->|].
        -- rewrite loop_state_snoc, loop_state_all by lia.
           fold s. rewrite Hb. split; [lia|done].
        -- rewrite loop_state_snoc by lia. apply Hiff; lia.
Qed.

End split_prefix.

(** * Facts about the sampler *)

Section sampler_facts.
Implicit Types (s : Split) (graph : nx.Graph) (c sp w : string).

Lemma split_graph_post c graph ratio P :
  gen_post (split_graph c graph ratio) P (splits_as c graph ratio).
Proof.
  intros g. unfold splits_as, split_graph.
  destruct (dict_get weights c) as [w|] eqn:Hw.
  - rewrite (split_loop_weighted _ w) by done.
    split; [apply Forall_nil_2|]. intros s [= <-] g'.
    by apply split_loop_weighted.
  - destruct (nx.edges graph) as [|e edges] eqn:He.
    + split; [apply Forall_nil_2|]. by intros s [= <-] g'.
    + rewrite split_loop_unweighted by done.
      split; [apply Forall_nil_2|]. by intros s [=].
Qed.

Lemma neighbors_of_post graph w P :
  gen_post (neighbors_of graph w) P (λ nbrs, nx.neighbors graph w = Some nbrs).
Proof.
  unfold neighbors_of. destruct (nx.neighbors graph w) as [nbrs|].
  - by apply gen_post_ret.
  - apply gen_post_raise.
Qed.

Lemma sample_edge_post c graph s k sp w1 w2 :
  (sp = "train" ∧ (w1, w2) ∈ train_edges s) ∨
  (sp = "test" ∧ (w1, w2) ∈ test_edges s) →
  gen_post (sample_edge c graph s k sp (w1, w2)) (emitted_by c graph s) (λ _, True).
Proof.
  intros Hsp. unfold sample_edge.
  case_decide as Hed; [by apply gen_post_ret|].
  case_decide as Hin; [by apply gen_post_ret|].
  assert (retained s sp w1 w2) as Hret by (split_and!; [done|done|tauto|tauto]).
  eapply gen_post_bind; [apply neighbors_of_post|]. intros nbrs Hnbrs.
  eapply gen_post_bind; [apply gen_post_choices|]. intros ws [Hws _].
  eapply gen_post_bind.
  - apply gen_post_yield. by eapply emitted_positive.
  - intros _ _. apply gen_post_for_each. intros w3 Hw3.
    apply gen_post_yield.
    apply (emitted_negative c graph s sp w1 w2 nbrs w3 Hret Hnbrs).
    rewrite Forall_forall in Hws. by apply Hws.
Qed.

Lemma sample_split_post c graph s k :
  gen_post (sample_split c graph s k) (emitted_by c graph s) (λ _, True).
Proof.
  unfold sample_split. apply gen_post_for_each. intros [data sp] Hin.
  apply gen_post_for_each. intros [w1 w2] He. apply sample_edge_post.
  apply elem_of_cons in Hin as [[= -> ->]|Hin]; [by left|].
  apply list_elem_of_singleton in Hin as [= -> ->]. by right.
Qed.

Lemma dataset_of_graph_post ratio k c graph :
  gen_post (dataset_of_graph ratio k c graph)
    (λ r, ∃ s, splits_as c graph ratio s ∧ emitted_by c graph s r) (λ _, True).
Proof.
  unfold dataset_of_graph.
  eapply gen_post_bind; [apply split_graph_post|]. intros s Hs.
  eapply gen_post_mono; [apply sample_split_post| |done].
  intros r Hr. by exists s.
Qed.

Lemma emitted_by_pos c graph s r : emitted_by c graph s r → pos r = c.
Proof. by destruct 1. Qed.

Lemma emitted_by_inv c graph s r :
  emitted_by c graph s r →
  ∃ w2, retained s (split r) (word1 r) w2 ∧
    ((synonym r = 1 ∧ word2 r = w2) ∨
     (synonym r = 0 ∧ ∃ nbrs, nx.neighbors graph (word1 r) = Some nbrs ∧
        word2 r ∈ neg_words_of s (split r) (word1 r) nbrs)).
Proof.
  intros [sp w1 w2 Hret|sp w1 w2 nbrs w3 Hret Hnbrs Hw3]; exists w2; simpl.
  - split; [done|by left].
  - split; [done|right]. split; [done|by exists nbrs].
Qed.

(** Where every record of a run comes from. *)
Lemma create_dataset_emitted syn_graphs ratio k g r :
  r ∈ yielded (create_dataset syn_graphs ratio k g) →
  ∃ graph s, (pos r, graph) ∈ syn_graphs ∧
    splits_as (pos r) graph ratio s ∧ emitted_by (pos r) graph s r.
Proof.
  assert (gen_post (create_dataset syn_graphs ratio k)
    (λ r, ∃ graph s, (pos r, graph) ∈ syn_graphs ∧
       splits_as (pos r) graph ratio s ∧ emitted_by (pos r) graph s r)
    (λ _, True)) as Hpost.
  { unfold create_dataset. apply gen_post_for_each. intros [c graph] Hin.
    eapply gen_post_mono; [apply dataset_of_graph_post| |done].
    intros r' (s & Hs & Hr). pose proof (emitted_by_pos _ _ _ _ Hr) as ->.
    by exists graph, s. }
  intros Hr. destruct (Hpost g) as [Hall _].
  by eapply Forall_forall in Hall.
Qed.

Lemma elem_of_neg_words s sp w1 nbrs w3 :
  w3 ∈ neg_words_of s sp w1 nbrs →
  w3 ≠ w1 ∧ (w3 ∉ nbrs) ∧ (w3 ∉ intersection s) ∧
  (sp = "train" → w3 ∈ train_words s ∧ w3 ∉ test_words s) ∧
  (sp = "test" → w3 ∈ test_words s ∧ w3 ∉ train_words s).
Proof.
  unfold neg_words_of, train_sampling, test_sampling, intersection.
  case_decide as Hsp; rewrite elem_of_elements; intros Hw3.
  - split_and!; [set_solver..|]. by subst.
  - split_and!; [set_solver..|done|set_solver].
Qed.

End sampler_facts.

(** * The graph builder (C5) *)

(** C5, as stated, fails: a synset that lists a form twice pairs the form
    with itself, and the graph gets a self-loop. *)
Lemma graph_builder_self_loop :
  nx.edges (syngraph [["a"; "a"]]) = [("a", "a")] ∧
  nx.has_edge (syngraph [["a"; "a"]]) "a" "a".
Proof. split; [by vm_compute|]. exists ["a"]. split; [by vm_compute|left]. Qed.

(** C5, amended: for every list of synsets, the builder adds an edge between
    the forms at every two different positions of a synset's lemma names,
    once the names with a hyphen or an underscore are dropped, and nothing
    else; a synset with fewer than 2 names left changes nothing; the nodes
    are the names left of the synsets with at least 2 of them; the graph is
    undirected and has no parallel edges ([graph.edges] yields every
    adjacency once, one way round); it has no self-loop provided no synset
    repeats a name among those left; and the synset a, b, c yields exactly
    the three edges (a,b), (a,c), (b,c). *)
Theorem graph_builder synsets :
  let G := syngraph synsets in
  (∀ a b, nx.has_edge G a b ↔
     ∃ synset i j, synset ∈ synsets ∧ i ≠ j ∧
       lemma_names synset !! i = Some a ∧ lemma_names synset !! j = Some b) ∧
  (∀ synset x, x ∈ lemma_names synset ↔
     x ∈ synset ∧
     ("_"%char ∉ list_ascii_of_string x) ∧ ("-"%char ∉ list_ascii_of_string x)) ∧
  (∀ G0 synset, length (lemma_names synset) < 2 → add_synset G0 synset = G0) ∧
  (∀ m, m ∈ nx.nodes G ↔
     ∃ synset, synset ∈ synsets ∧
       1 < length (lemma_names synset) ∧ m ∈ lemma_names synset) ∧
  (∀ a b, nx.has_edge G a b → nx.has_edge G b a) ∧
  nx.wf G ∧ NoDup (nx.edges G) ∧
  (∀ a b, (a, b) ∈ nx.edges G → (b, a) ∈ nx.edges G → a = b) ∧
  (∀ a b, nx.has_edge G a b ↔ (a, b) ∈ nx.edges G ∨ (b, a) ∈ nx.edges G) ∧
  ((∀ synset, synset ∈ synsets → NoDup (lemma_names synset)) →
   ∀ a, ¬ nx.has_edge G a a) ∧
  nx.edges (syngraph [["a"; "b"; "c"]]) = [("a", "b"); ("a", "c"); ("b", "c")].
Proof.
  intros G. pose proof (wf_syngraph synsets) as Hwf. fold G in Hwf.
  split_and!.
  - apply has_edge_syngraph.
  - intros synset x. apply elem_of_lemma_names.
  - intros G0 synset Hlen. unfold add_synset. rewrite decide_False; [done|lia].
  - apply nodes_syngraph.
  - apply has_edge_syngraph_sym.
  - done.
  - by apply NoDup_edges.
  - apply edges_one_way.
  - intros a b. split.
    + intros Hab. apply has_edge_edges; [done|by apply has_edge_syngraph_sym].
    + intros [Hab|Hab]; [|apply has_edge_syngraph_sym]; by apply edges_has_edge.
  - intros Hnd a (synset & i & j & Hin & Hij & Hi & Hj)%has_edge_syngraph.
    apply Hij. by eapply NoDup_lookup; [apply Hnd|..].
  - by vm_compute.
Qed.

Lemma graph_builder_witness :
  (∀ synset, synset ∈ change_synsets → NoDup (lemma_names synset)) ∧
  ¬ nx.has_edge (syngraph change_synsets) "change" "change".
Proof.
  assert (∀ synset, synset ∈ change_synsets → NoDup (lemma_names synset)) as Hnd.
  { apply Forall_forall. apply (bool_decide_unpack _). by vm_compute. }
  split; [exact Hnd|].
  apply (graph_builder change_synsets). exact Hnd.
Defined.

(** * The splitter (C3, C8) *)

(** C3, as stated, fails.  With the default ratio 0.5 and the weight 1.0 of
    the adjectives, on a graph of five words, the second edge is processed
    when [train_words] holds 2 words, fewer than r·m·|all_vertices| = 2.5,
    and yet it is routed to test: the code compares with
    [int(5 * 0.5) * 1.0 = 2]. *)
Lemma split_threshold_not_spec :
  let graph := syngraph size_synsets in
  let edges := nx.edges graph in
  ∃ s, splits_as "adjective" graph 0.5 s ∧
    edges !! 1 = Some ("small", "little") ∧
    (inject_Z (Z.of_nat (size (train_words
       (loop_state (train_len_of graph 0.5) 1.0 edges 1))))
     < spec_threshold 0.5 1.0 (length (nx.nodes graph)))%Q ∧
    (("small", "little") ∉ train_edges s) ∧
    ("small", "little") ∈ test_edges s.
Proof.
  intros graph edges.
  exists (foldl (route (train_len_of graph 0.5) 1.0) empty_split edges).
  split_and!.
  - intros g. by apply split_loop_weighted.
  - by vm_compute.
  - by vm_compute.
  - apply (bool_decide_unpack _). by vm_compute.
  - apply (bool_decide_unpack _). by vm_compute.
Qed.

(** C3, amended: in the splitter's single forward pass over the edges in the
    order [graph.edges] yields them, the edge at position [i] is routed to
    [train_edges] (with both endpoints added to [train_words]) exactly when,
    at the moment it is processed, |train_words| < int(|all_vertices|·r)·m,
    the two products being the code's products of doubles, each rounded to
    the nearest double, and [int] truncating;
    the edges routed to train are a prefix of the edge list, and every edge
    from the first one that fails the test on is routed to [test_edges], with
    its endpoints added to [test_words]. *)
Theorem split_threshold c m graph r :
  dict_get weights c = Some m →
  let edges := nx.edges graph in
  ∃ s j, splits_as c graph r s ∧ j ≤ length edges ∧
    train_edges s = take j edges ∧ test_edges s = drop j edges ∧
    train_words s = endpoints (take j edges) ∧
    test_words s = endpoints (drop j edges) ∧
    ∀ i, i < length edges →
      (i < j ↔
       (inject_Z (Z.of_nat (size (train_words
          (loop_state (train_len_of graph r) m edges i))))
        < code_threshold r m (length (nx.nodes graph)))%Q).
Proof.
  intros Hm edges.
  destruct (split_prefix (train_len_of graph r) m edges)
    as (j & Hj & Htr & Hte & Htw & Htew & _ & Hiff).
  eexists _, j. split_and!; [|done..|].
  - intros g. by apply split_loop_weighted.
  - intros i Hi. rewrite (Hiff i Hi). unfold below_threshold.
    by rewrite bool_decide_eq_true.
Qed.

Lemma split_threshold_witness :
  dict_get weights "adjective" = Some 1.0%Q ∧
  ∃ s j, splits_as "adjective" (syngraph size_synsets) 0.5 s ∧
    j ≤ length (nx.edges (syngraph size_synsets)) ∧
    train_edges s = take j (nx.edges (syngraph size_synsets)) ∧
    test_edges s = drop j (nx.edges (syngraph size_synsets)) ∧
    train_words s = endpoints (take j (nx.edges (syngraph size_synsets))) ∧
    test_words s = endpoints (drop j (nx.edges (syngraph size_synsets))) ∧
    ∀ i, i < length (nx.edges (syngraph size_synsets)) →
      (i < j ↔
       (inject_Z (Z.of_nat (size (train_words
          (loop_state (train_len_of (syngraph size_synsets) 0.5) 1.0
             (nx.edges (syngraph size_synsets)) i))))
        < code_threshold 0.5 1.0 (length (nx.nodes (syngraph size_synsets))))%Q).
Proof.
  split; [reflexivity|].
  apply (split_threshold "adjective" 1.0 (syngraph size_synsets) 0.5).
  reflexivity.
Defined.

(** C8: for every graph (a dict of dicts holds a node once and a neighbour
    once per node) and every part of speech that has a weight, the splitter
    returns, and its two edge lists, one after the other, are [graph.edges]:
    every edge is in one of them, none is in both, and none is in one list
    one way round and in the other list the other way round. *)
Theorem split_coverage c m graph r :
  dict_get weights c = Some m →
  nx.wf graph →
  ∃ s, splits_as c graph r s ∧
    train_edges s ++ test_edges s = nx.edges graph ∧
    (∀ e, e ∈ nx.edges graph ↔ e ∈ train_edges s ∨ e ∈ test_edges s) ∧
    (∀ e, ¬ (e ∈ train_edges s ∧ e ∈ test_edges s)) ∧
    (∀ x y, (x, y) ∈ train_edges s → (y, x) ∉ test_edges s).
Proof.
  intros Hm Hwf.
  destruct (split_prefix (train_len_of graph r) m (nx.edges graph))
    as (j & Hj & Htr & Hte & _).
  set (s := foldl _ _ _) in *.
  assert (train_edges s ++ test_edges s = nx.edges graph) as Happ
    by (by rewrite Htr, Hte, take_drop).
  pose proof (NoDup_edges graph Hwf) as Hnd. rewrite <- Happ in Hnd.
  apply NoDup_app in Hnd as (_ & Hdisj & _).
  exists s. split_and!.
  - intros g. by apply split_loop_weighted.
  - done.
  - intros e. by rewrite <- Happ, elem_of_app.
  - intros e [He1 He2]. by eapply Hdisj.
  - intros x y Hxy Hyx.
    assert (x = y) as ->.
    { apply (edges_one_way graph); rewrite <- Happ, elem_of_app; auto. }
    by eapply Hdisj.
Qed.

Lemma split_coverage_witness :
  dict_get weights "noun" = Some 1.0%Q ∧
  nx.wf (syngraph change_synsets) ∧
  ∃ s, splits_as "noun" (syngraph change_synsets) 1 s ∧
    train_edges s ++ test_edges s = nx.edges (syngraph change_synsets) ∧
    (∀ e, e ∈ nx.edges (syngraph change_synsets) ↔
          e ∈ train_edges s ∨ e ∈ test_edges s) ∧
    (∀ e, ¬ (e ∈ train_edges s ∧ e ∈ test_edges s)) ∧
    (∀ x y, (x, y) ∈ train_edges s → (y, x) ∉ test_edges s).
Proof.
  assert (nx.wf (syngraph change_synsets)) as Hwf
    by (apply (bool_decide_unpack _); by vm_compute).
  split_and!; [reflexivity|exact Hwf|].
  apply (split_coverage "noun" 1.0 (syngraph change_synsets) 1);
    [reflexivity|exact Hwf].
Defined.

(** The rounding of the products decides the split.  Three words at ratio
    0.3333333333333333: [int(3 * ratio)] is 1, not 0, and the first edge
    goes to train.  Ten words at ratio 0.7: [int(10 * 0.7)] is 7, not 6,
    four edges go to train and [train_words] ends with 8 words. *)
Example split_rounds_up :
  train_len_of (syngraph run_synsets) 0.3333333333333333 = 1%Z ∧
  train_edges (split_of 1.0 (syngraph run_synsets) 0.3333333333333333)
    = [("run", "runts")] ∧
  train_len_of (syngraph ten_synsets) 0.7 = 7%Z ∧
  train_edges (split_of 1.0 (syngraph ten_synsets) 0.7)
    = [("big", "large"); ("huge", "vast"); ("small", "little"); ("tiny", "minute")] ∧
  size (train_words (split_of 1.0 (syngraph ten_synsets) 0.7)) = 8.
Proof. vm_compute. done. Qed.

(** * The sampler (C4, C6, C7, C9, C10) *)

(** C4: every record a run yields, with either label and in either split,
    comes from a graph of the input whose split has neither [word1] nor
    [word2] in [train_words ∩ test_words]. *)
Theorem no_leakage syn_graphs ratio k g r :
  r ∈ yielded (create_dataset syn_graphs ratio k g) →
  ∃ graph s, (pos r, graph) ∈ syn_graphs ∧ splits_as (pos r) graph ratio s ∧
    (word1 r ∉ train_words s ∩ test_words s) ∧
    (word2 r ∉ train_words s ∩ test_words s).
Proof.
  intros (graph & s & Hin & Hs & Hr)%create_dataset_emitted.
  exists graph, s. split_and!; [done..| |];
    apply emitted_by_inv in Hr as (w2 & (_ & _ & H1 & H2) & Hr); [done|].
  destruct Hr as [[_ ->]|(_ & nbrs & _ & Hw3)]; [done|].
  by apply elem_of_neg_words in Hw3 as (_ & _ & Hw3 & _).
Qed.

(** C6: no record labelled 1 has an edit distance between [word1] and
    [word2] below 2, and an edge whose ends are closer than 2 makes the
    sampler yield nothing, draw nothing and go on. *)
Theorem edit_distance_filter syn_graphs ratio k g :
  (∀ r, r ∈ yielded (create_dataset syn_graphs ratio k g) → synonym r = 1 →
        2 ≤ editdistance_eval (word1 r) (word2 r)) ∧
  (∀ c graph s sp w1 w2 g', editdistance_eval w1 w2 < 2 →
        sample_edge c graph s k sp (w1, w2) g' = returns () g').
Proof.
  split.
  - intros r (graph & s & _ & _ & Hr)%create_dataset_emitted Hlabel.
    apply emitted_by_inv in Hr as (w2 & (_ & Hed & _) & [[_ ->]|[Hzero _]]);
      [lia|congruence].
  - intros c graph s sp w1 w2 g' Hed. unfold sample_edge.
    by rewrite decide_True.
Qed.

(** C7: for every record labelled 0 that a run yields, [word2] differs from
    [word1] and is not a neighbour of [word1] in the graph of the record's
    part of speech. *)
Theorem negative_disjointness syn_graphs ratio k g r :
  r ∈ yielded (create_dataset syn_graphs ratio k g) →
  synonym r = 0 →
  ∃ graph, (pos r, graph) ∈ syn_graphs ∧
    word2 r ≠ word1 r ∧ ¬ nx.has_edge graph (word1 r) (word2 r).
Proof.
  intros (graph & s & Hin & _ & Hr)%create_dataset_emitted Hlabel.
  exists graph. split; [done|].
  apply emitted_by_inv in Hr as (w2 & _ & [[? _]|(_ & nbrs & Hnbrs & Hw3)]);
    [congruence|].
  apply elem_of_neg_words in Hw3 as (Hne & Hnot & _).
  split; [done|]. intros (nbrs' & Hl & Hw3).
  unfold nx.neighbors in Hnbrs. by simplify_eq.
Qed.

(** C9: a record labelled 0 is yielded in the train split or in the test
    split; in the train split its [word2] is in [train_words] and not in
    [test_words], in the test split it is in [test_words] and not in
    [train_words]. *)
Theorem negatives_from_own_split syn_graphs ratio k g r :
  r ∈ yielded (create_dataset syn_graphs ratio k g) →
  synonym r = 0 →
  ∃ graph s, (pos r, graph) ∈ syn_graphs ∧ splits_as (pos r) graph ratio s ∧
    (split r = "train" ∨ split r = "test") ∧
    (split r = "train" → word2 r ∈ train_words s ∧ word2 r ∉ test_words s) ∧
    (split r = "test" → word2 r ∈ test_words s ∧ word2 r ∉ train_words s).
Proof.
  intros (graph & s & Hin & Hs & Hr)%create_dataset_emitted Hlabel.
  exists graph, s. split; [done|]. split; [done|].
  apply emitted_by_inv in Hr
    as (w2 & (Hsp & _) & [[? _]|(_ & nbrs & Hnbrs & Hw3)]); [congruence|].
  apply elem_of_neg_words in Hw3 as (_ & _ & _ & Htrain & Htest).
  split_and!; [|done|done]. destruct Hsp as [[-> _]|[-> _]]; auto.
Qed.

Lemma run_dataset :
  yielded (create_dataset (get_syngraph_wordset [("noun", run_synsets)]) 1 1 zero_tape)
  = [run_positive; run_negative].
Proof. by vm_compute. Qed.

Lemma no_leakage_witness :
  run_negative ∈ yielded
    (create_dataset (get_syngraph_wordset [("noun", run_synsets)]) 1 1 zero_tape) ∧
  ∃ graph s,
    (pos run_negative, graph) ∈ get_syngraph_wordset [("noun", run_synsets)] ∧
    splits_as (pos run_negative) graph 1 s ∧
    (word1 run_negative ∉ train_words s ∩ test_words s) ∧
    (word2 run_negative ∉ train_words s ∩ test_words s).
Proof.
  assert (run_negative ∈ yielded
    (create_dataset (get_syngraph_wordset [("noun", run_synsets)]) 1 1 zero_tape))
    as Hin by (apply (bool_decide_unpack _); by vm_compute).
  split; [exact Hin|].
  exact (no_leakage _ _ _ _ _ Hin).
Defined.

Lemma edit_distance_filter_witness :
  2 ≤ editdistance_eval (word1 run_positive) (word2 run_positive) ∧
  sample_edge "noun" (syngraph run_synsets) empty_split 1 "train"
    ("runts", "runs") zero_tape = returns () zero_tape.
Proof.
  split.
  - apply (proj1 (edit_distance_filter
      (get_syngraph_wordset [("noun", run_synsets)]) 1 1 zero_tape)).
    + apply (bool_decide_unpack _). by vm_compute.
    + reflexivity.
  - apply (proj2 (edit_distance_filter [] 1 1 zero_tape)).
    apply (bool_decide_unpack _). by vm_compute.
Defined.

Lemma negative_disjointness_witness :
  run_negative ∈ yielded
    (create_dataset (get_syngraph_wordset [("noun", run_synsets)]) 1 1 zero_tape) ∧
  synonym run_negative = 0 ∧
  ∃ graph,
    (pos run_negative, graph) ∈ get_syngraph_wordset [("noun", run_synsets)] ∧
    word2 run_negative ≠ word1 run_negative ∧
    ¬ nx.has_edge graph (word1 run_negative) (word2 run_negative).
Proof.
  assert (run_negative ∈ yielded
    (create_dataset (get_syngraph_wordset [("noun", run_synsets)]) 1 1 zero_tape))
    as Hin by (apply (bool_decide_unpack _); by vm_compute).
  split_and!; [exact Hin|reflexivity|].
  exact (negative_disjointness _ _ _ _ _ Hin eq_refl).
Defined.

Lemma negatives_from_own_split_witness :
  run_negative ∈ yielded
    (create_dataset (get_syngraph_wordset [("noun", run_synsets)]) 1 1 zero_tape) ∧
  synonym run_negative = 0 ∧
  ∃ graph s,
    (pos run_negative, graph) ∈ get_syngraph_wordset [("noun", run_synsets)] ∧
    splits_as (pos run_negative) graph 1 s ∧
    (split run_negative = "train" ∨ split run_negative = "test") ∧
    (split run_negative = "train" →
       word2 run_negative ∈ train_words s ∧ word2 run_negative ∉ test_words s) ∧
    (split run_negative = "test" →
       word2 run_negative ∈ test_words s ∧ word2 run_negative ∉ train_words s).
Proof.
  assert (run_negative ∈ yielded
    (create_dataset (get_syngraph_wordset [("noun", run_synsets)]) 1 1 zero_tape))
    as Hin by (apply (bool_decide_unpack _); by vm_compute).
  split_and!; [exact Hin|reflexivity|].
  exact (negatives_from_own_split _ _ _ _ _ Hin eq_refl).
Defined.

(** ** Runs that end well *)

Section runs_facts.

Lemma runs_ret {A} (a : A) g : runs (mret a) g [] a g.
Proof. done. Qed.

Lemma runs_yield r g : runs (yield r) g [r] () g.
Proof. done. Qed.

Lemma runs_bind {A B} (m : Gen A) (f : A → Gen B) g out a g' out' b g'' :
  runs m g out a g' → runs (f a) g' out' b g'' →
  runs (m ≫= f) g (out ++ out') b g''.
Proof.
  unfold runs, mbind, Gen_bind. intros -> . simpl. by intros ->.
Qed.

Lemma runs_for_each_cons {A} (x : A) l body g out g' out' g'' :
  runs (body x) g out () g' → runs (for_each l body) g' out' () g'' →
  runs (for_each (x :: l) body) g (out ++ out') () g''.
Proof. intros Hx Hl. simpl. by eapply runs_bind. Qed.

Lemma runs_for_each_yield {A} (l : list A) (f : A → PairRecord) g :
  runs (for_each l (λ x, yield (f x))) g (f <$> l) () g.
Proof.
  induction l as [|x l IH]; [done|]. rewrite fmap_cons.
  apply (runs_for_each_cons x l _ g [f x] g (f <$> l) g); [done|apply IH].
Qed.

(** The index [int(random() * total)] is below [total]. *)
Lemma random_index_lt (K : N) (total : nat) :
  0 < total →
  Z.to_nat (int ((Z.of_N (K `mod` 2 ^ 53) # 2 ^ 53) * inject_Z (Z.of_nat total)))
  < total.
Proof.
  intros Htotal. unfold int, Qmult, inject_Z. cbn [Qnum Qden].
  pose proof (N.mod_lt K (2 ^ 53)%N ltac:(done)) as HK.
  set (k := (K `mod` 2 ^ 53)%N) in *.
  assert (0 ≤ Z.of_N k < 2 ^ 53)%Z as Hk by lia.
  rewrite Z.quot_div_nonneg by lia.
  assert ((Z.of_N k * Z.of_nat total) `div` Z.pos (2 ^ 53 * 1)
          < Z.of_nat total)%Z; [|lia].
  apply Z.div_lt_upper_bound; [lia|].
  replace (Z.pos (2 ^ 53 * 1)) with (2 ^ 53)%Z by done. nia.
Qed.

(** On a non-empty population [random.choices] returns [k] of its
    elements and yields nothing. *)
Lemma choices_runs population k g :
  population ≠ [] →
  ∃ ws g', runs (choices population k) g [] ws g' ∧
    length ws = k ∧ Forall (.∈ population) ws.
Proof.
  intros Hne. revert g. induction k as [|k IH]; intros g.
  - exists [], g. by split_and!.
  - assert (0 < length population) as Hlen by (destruct population; simpl; [done|lia]).
    destruct (lookup_lt_is_Some_2 population _
      (random_index_lt (tape g (cursor g)) _ Hlen)) as [w Hw].
    destruct (IH {| tape := tape g; cursor := S (cursor g) |})
      as (ws & g' & Hruns & Hws & Hall).
    exists (w :: ws), g'. split_and!.
    + cbn [choices]. apply (runs_bind random _ g [] _ _ [] (w :: ws) g' eq_refl).
      rewrite Hw. by apply (runs_bind _ _ _ [] ws g' [] _ g' Hruns).
    + simpl. by rewrite Hws.
    + apply Forall_cons. split; [by eapply list_elem_of_lookup_2|done].
Qed.

(** Negative count: an edge that passes both filters and has a candidate
    yields itself, labelled 1, and then [k] of its candidates, labelled 0. *)
Lemma sample_edge_runs c graph s k sp w1 w2 nbrs g :
  ¬ editdistance_eval w1 w2 < 2 →
  w1 ∉ intersection s → w2 ∉ intersection s →
  nx.neighbors graph w1 = Some nbrs →
  neg_words_of s sp w1 nbrs ≠ [] →
  ∃ ws g', length ws = k ∧ Forall (.∈ neg_words_of s sp w1 nbrs) ws ∧
    runs (sample_edge c graph s k sp (w1, w2)) g
      ({| word1 := w1; word2 := w2; synonym := 1; pos := c; split := sp |} ::
       ((λ w3, {| word1 := w1; word2 := w3; synonym := 0; pos := c; split := sp |})
          <$> ws))
      () g'.
Proof.
  intros Hed H1 H2 Hnbrs Hpool.
  destruct (choices_runs _ k g Hpool) as (ws & g' & Hruns & Hlen & Hall).
  exists ws, g'. split_and!; [done..|].
  unfold sample_edge. rewrite decide_False by done.
  rewrite decide_False by tauto.
  unfold neighbors_of. rewrite Hnbrs.
  apply (runs_bind _ _ g [] nbrs g _ _ _ (runs_ret _ _)).
  apply (runs_bind _ _ g [] ws g' _ _ _ Hruns).
  apply (runs_bind _ _ g' [_] () g' _ _ _ (runs_yield _ _)).
  apply runs_for_each_yield.
Qed.

Lemma sample_edge_skips c graph s k sp w1 w2 g :
  editdistance_eval w1 w2 < 2 →
  runs (sample_edge c graph s k sp (w1, w2)) g [] () g.
Proof. intros Hed. unfold sample_edge. by rewrite decide_True. Qed.

Lemma raises_bind_l {A B} (m : Gen A) (f : A → Gen B) g out e :
  raises m g out e → raises (m ≫= f) g out e.
Proof. unfold raises, mbind, Gen_bind. cbv zeta. by intros [<- ->]. Qed.

Lemma raises_bind_r {A B} (m : Gen A) (f : A → Gen B) g out a g' out' e :
  runs m g out a g' → raises (f a) g' out' e →
  raises (m ≫= f) g (out ++ out') e.
Proof.
  unfold runs, raises, mbind, Gen_bind. cbv zeta. intros ->. simpl.
  by intros [-> ->].
Qed.

(** An exception in the body ends the loop: the later elements are never
    looked at. *)
Lemma for_each_raises {A} (x : A) l body g out e :
  raises (body x) g out e → raises (for_each (x :: l) body) g out e.
Proof. apply raises_bind_l. Qed.

(** An edge that passes both filters and has no candidate makes
    [random.choices] raise before anything is yielded for it. *)
Lemma sample_edge_empty_pool c graph s k sp w1 w2 nbrs g :
  ¬ editdistance_eval w1 w2 < 2 →
  w1 ∉ intersection s → w2 ∉ intersection s →
  nx.neighbors graph w1 = Some nbrs →
  neg_words_of s sp w1 nbrs = [] →
  k ≠ 0 →
  raises (sample_edge c graph s k sp (w1, w2)) g [] IndexError.
Proof.
  intros Hed H1 H2 Hnbrs Hpool Hk. unfold sample_edge.
  rewrite decide_False by done. rewrite decide_False by tauto.
  unfold neighbors_of. rewrite Hnbrs.
  apply (raises_bind_r _ _ g [] nbrs g [] _ (runs_ret _ _)).
  apply raises_bind_l. rewrite Hpool. by apply choices_empty.
Qed.

(** Whatever the seed, the run on the synsets run, runts and runts, runs
    yields the edge (run, runts) and the negative (run, runs). *)
Lemma run_dataset_any_seed g :
  ∃ g', runs (create_dataset (get_syngraph_wordset [("noun", run_synsets)]) 1 1)
          g [run_positive; run_negative] () g'.
Proof.
  set (graph := syngraph run_synsets).
  set (s := foldl (route (train_len_of graph 1) 1.0) empty_split (nx.edges graph)).
  assert (splits_as "noun" graph 1 s) as Hs
    by (intros g0; by apply split_loop_weighted).
  assert (train_edges s = [("run", "runts"); ("runts", "runs")]) as Htrain
    by (by vm_compute).
  assert (test_edges s = []) as Htest by (by vm_compute).
  destruct (sample_edge_runs "noun" graph s 1 "train" "run" "runts" ["runts"] g)
    as (ws & g' & Hlen & Hall & Hruns).
  { apply (bool_decide_unpack _). by vm_compute. }
  { apply (bool_decide_unpack _). by vm_compute. }
  { apply (bool_decide_unpack _). by vm_compute. }
  { by vm_compute. }
  { by vm_compute. }
  assert (ws = ["runs"]) as ->.
  { destruct ws as [|w [|??]]; [discriminate Hlen| |discriminate Hlen].
    apply Forall_inv in Hall.
    replace (neg_words_of s "train" "run" ["runts"]) with ["runs"] in Hall
      by (by vm_compute).
    by apply list_elem_of_singleton in Hall as ->. }
  exists g'. unfold create_dataset, get_syngraph_wordset. cbn [fmap list_fmap].
  fold graph.
  apply (runs_for_each_cons _ [] _ g [run_positive; run_negative] g' [] g');
    [|done].
  unfold dataset_of_graph.
  apply (runs_bind _ _ g [] s g [run_positive; run_negative] () g' (Hs g)).
  unfold sample_split. rewrite Htrain, Htest.
  apply (runs_for_each_cons _ _ _ g [run_positive; run_negative] g' [] g').
  - apply (runs_for_each_cons _ _ _ g [run_positive; run_negative] g' [] g' Hruns).
    apply (runs_for_each_cons _ _ _ g' [] g' [] g'); [|done].
    apply sample_edge_skips. apply (bool_decide_unpack _). by vm_compute.
  - by apply (runs_for_each_cons _ [] _ g' [] g' [] g').
Qed.

End runs_facts.

(** C10: the edit-distance filter looks at the edge only.  There are an
    input and a seed for which a record labelled 0 is yielded whose two
    words are at edit distance 1, below the threshold 2: run and runs, which
    are not neighbours in the graph; on that input every seed yields it. *)
Theorem negatives_not_filtered :
  ∃ pos_synsets ratio k g r,
    r ∈ yielded (create_dataset (get_syngraph_wordset pos_synsets) ratio k g) ∧
    synonym r = 0 ∧
    editdistance_eval (word1 r) (word2 r) < 2 ∧
    (∃ graph, (pos r, graph) ∈ get_syngraph_wordset pos_synsets ∧
       ¬ nx.has_edge graph (word1 r) (word2 r)) ∧
    (∀ g', r ∈ yielded (create_dataset (get_syngraph_wordset pos_synsets) ratio k g')).
Proof.
  exists [("noun", run_synsets)], 1%Q, 1, zero_tape, run_negative.
  assert (∀ g, run_negative ∈ yielded
    (create_dataset (get_syngraph_wordset [("noun", run_synsets)]) 1 1 g)) as Hany.
  { intros g. destruct (run_dataset_any_seed g) as [g' ->]. simpl. set_solver. }
  split_and!.
  - apply Hany.
  - reflexivity.
  - apply (bool_decide_unpack _). by vm_compute.
  - exists (syngraph run_synsets). split; [left|].
    intros (nbrs & Hl & Hin). vm_compute in Hl. simplify_eq.
    by apply (bool_decide_pack _) in Hin.
  - apply Hany.
Qed.

(** * The empty candidate pool (C1, C2) *)

(** C1: the code does not handle the empty pool.  On the graph of the two
    synsets change, alter, modify and change, transform, as verbs, with
    ratio 1.0 and one negative per edge, every word is a neighbour of
    change: [random.choices] raises [IndexError] at the first edge, whatever
    the seed; nothing is yielded, not even the edge itself, and the edges
    that follow, (alter, modify) with its candidate transform among them,
    are never looked at. *)
Theorem empty_pool_aborts g :
  let run := create_dataset [("verb", syngraph change_synsets)] 1 1 g in
  yielded run = [] ∧ result run = Raised IndexError.
Proof. by vm_compute. Qed.

Lemma weights_cases c :
  c = "verb" ∨ c = "adjective" ∨ c = "noun" ∨ dict_get weights c = None.
Proof.
  destruct (decide (c = "verb")); [by left|right].
  destruct (decide (c = "adjective")); [by left|right].
  destruct (decide (c = "noun")); [by left|right].
  unfold weights. cbn [dict_get]. by rewrite !decide_False.
Qed.

(** Whatever the part of speech and the seed, the run on the two synsets of
    the end-to-end example yields nothing. *)
Lemma change_dataset_empty c g :
  yielded (create_dataset (get_syngraph_wordset [(c, change_synsets)]) 1 1 g) = [].
Proof.
  destruct (weights_cases c) as [->|[->|[->|Hnone]]]; [by vm_compute..|].
  unfold create_dataset, get_syngraph_wordset. cbn [fmap list_fmap for_each].
  unfold dataset_of_graph, split_graph.
  replace (nx.edges (syngraph change_synsets))
    with [("change", "alter"); ("change", "modify");
          ("change", "transform"); ("alter", "modify")] by (by vm_compute).
  unfold mbind, Gen_bind. cbv zeta.
  by rewrite split_loop_unweighted.
Qed.

(** With the weight 1.0 of the nouns and the adjectives the threshold is 4,
    and the fourth edge of the example goes to test. *)
Lemma change_split_noun :
  ∃ s, splits_as "noun" (syngraph change_synsets) 1 s ∧
    train_edges s = [("change", "alter"); ("change", "modify"); ("change", "transform")] ∧
    test_edges s = [("alter", "modify")].
Proof.
  exists (foldl (route (train_len_of (syngraph change_synsets) 1) 1.0) empty_split
            (nx.edges (syngraph change_synsets))).
  split_and!; [|vm_compute; reflexivity..].
  intros g. by apply split_loop_weighted.
Qed.

(** C2, as stated, fails: on the two synsets of the example, with ratio 1.0
    and one negative per edge, no part of speech and no seed give a run that
    yields 4 records labelled 1 and 4 labelled 0. *)
Lemma end_to_end_not_four_and_four :
  ¬ ∃ c g,
    let out := yielded
      (create_dataset (get_syngraph_wordset [(c, change_synsets)]) 1 1 g) in
    length (filter (λ r, synonym r = 1) out) = 4 ∧
    length (filter (λ r, synonym r = 0) out) = 4.
Proof. intros (c & g & Hout). rewrite change_dataset_empty in Hout. by destruct Hout. Qed.

(** C2, amended: for the two synsets change, alter, modify and change,
    transform, the graph has exactly the nodes change, alter, modify,
    transform and the edges (change, alter), (change, modify),
    (change, transform), (alter, modify); with ratio 1.0 the splitter routes
    all four edges to train for the verbs, whose weight is 1.15; the
    candidate negatives of an edge are the train words but its first word
    and that word's neighbours: none for the three edges that start at
    change, and transform alone for (alter, modify). *)
Theorem end_to_end_example :
  let graph := syngraph change_synsets in
  nx.nodes graph = ["change"; "alter"; "modify"; "transform"] ∧
  nx.edges graph = [("change", "alter"); ("change", "modify");
                    ("change", "transform"); ("alter", "modify")] ∧
  (∀ a b, nx.has_edge graph a b ↔ (a, b) ∈ nx.edges graph ∨ (b, a) ∈ nx.edges graph) ∧
  ∃ s, splits_as "verb" graph 1 s ∧
    train_edges s = nx.edges graph ∧ test_edges s = [] ∧
    train_words s = {["change"; "alter"; "modify"; "transform"]} ∧
    test_words s = ∅ ∧
    nx.neighbors graph "change" = Some ["alter"; "modify"; "transform"] ∧
    neg_words_of s "train" "change" ["alter"; "modify"; "transform"] = [] ∧
    nx.neighbors graph "alter" = Some ["change"; "modify"] ∧
    neg_words_of s "train" "alter" ["change"; "modify"] = ["transform"].
Proof.
  intros graph. split_and!; [by vm_compute..| |].
  - intros a b. split.
    + intros Hab. apply has_edge_edges; [done|by apply has_edge_syngraph_sym].
    + intros [Hab|Hab]; [|apply has_edge_syngraph_sym];
        apply edges_has_edge; try done; apply wf_syngraph.
  - exists (foldl (route (train_len_of graph 1) 1.15) empty_split (nx.edges graph)).
    split_and!; [|vm_compute; reflexivity..].
    intros g. by apply split_loop_weighted.
Qed.


(** * More on the graph builder *)

Section builder_more.
Implicit Types (G : nx.Graph) (a b m : string) (synset : Synset).

Lemma lookup_has_node G u nbrs : nx.lookup G u = Some nbrs → u ∈ nx.nodes G.
Proof. intros Hl. apply lookup_nodes. by rewrite Hl. Qed.

Lemma add_node_id G n : n ∈ nx.nodes G → nx.add_node G n = G.
Proof. intros Hn. unfold nx.add_node. by rewrite decide_True. Qed.

Lemma set_adj_id u v G :
  NoDup (nx.nodes G) → nx.has_edge G u v → nx.set_adj u v G = G.
Proof.
  intros Hnd (nbrs & Hl & Hv). unfold nx.set_adj.
  rewrite <- (list_fmap_id G) at 2. apply list_fmap_ext.
  intros i [n x] Hi. simpl. case_decide as Hn; [|done]. subst.
  pose proof (index_lookup _ _ _ _ Hnd Hi) as Hx. simplify_eq.
  by rewrite decide_True.
Qed.

Lemma add_edge_id G u v :
  nx.wf G → nx.has_edge G u v → nx.has_edge G v u → nx.add_edge G (u, v) = G.
Proof.
  intros [Hnd _] Huv Hvu. unfold nx.add_edge.
  destruct Huv as (x & Hx & Hv). destruct Hvu as (y & Hy & Hu).
  rewrite (add_node_id G u) by (by apply (lookup_has_node _ _ x)).
  rewrite (add_node_id G v) by (by apply (lookup_has_node _ _ y)).
  rewrite (set_adj_id u v) by (done || by exists x).
  by rewrite set_adj_id by (done || by exists y).
Qed.

Lemma add_edges_from_id G es :
  nx.wf G →
  (∀ u v, (u, v) ∈ es → nx.has_edge G u v ∧ nx.has_edge G v u) →
  nx.add_edges_from G es = G.
Proof.
  intros Hwf. unfold nx.add_edges_from.
  induction es as [|[u v] es IH]; intros Hes; cbn [foldl]; [done|].
  destruct (Hes u v) as [Huv Hvu]; [left|].
  rewrite add_edge_id by done. apply IH. intros ???. apply Hes. by right.
Qed.

Lemma syngraph_snoc synsets synset :
  syngraph (synsets ++ [synset]) = add_synset (syngraph synsets) synset.
Proof. unfold syngraph. by rewrite foldl_app. Qed.

Lemma add_synset_known synsets synset :
  synset ∈ synsets → add_synset (syngraph synsets) synset = syngraph synsets.
Proof.
  intros Hin. unfold add_synset. case_decide; [|done].
  apply add_edges_from_id; [apply wf_syngraph|].
  intros u v Huv. unfold syngraph.
  split; apply has_edge_foldl_add_synset; right; exists synset; auto.
Qed.

End builder_more.

Lemma syngraph_node_single synsets m :
  m ∈ nx.nodes (syngraph synsets) → _is_single_word m = true.
Proof.
  intros (synset & _ & _ & Hm)%nodes_syngraph.
  unfold lemma_names in Hm. by apply list_elem_of_filter in Hm as [? _].
Qed.

Lemma syngraph_node_neighbour synsets m :
  m ∈ nx.nodes (syngraph synsets) → ∃ b, nx.has_edge (syngraph synsets) m b.
Proof.
  intros (synset & Hin & Hlen & Hm)%nodes_syngraph.
  apply list_elem_of_lookup in Hm as [i Hi].
  destruct (lookup_lt_is_Some_2 (lemma_names synset) (if decide (i = 0) then 1 else 0))
    as [b Hb]; [case_decide; lia|].
  exists b. apply has_edge_syngraph.
  exists synset, i, (if decide (i = 0) then 1 else 0).
  split_and!; [done| |done|done]. case_decide; lia.
Qed.

Lemma has_edge_syngraph_nodes synsets a b :
  nx.has_edge (syngraph synsets) a b →
  a ∈ nx.nodes (syngraph synsets) ∧ b ∈ nx.nodes (syngraph synsets).
Proof.
  intros (synset & i & j & Hin & Hij & Hi & Hj)%has_edge_syngraph.
  assert (1 < length (lemma_names synset)) as Hlen.
  { apply lookup_lt_Some in Hi, Hj. lia. }
  split; apply nodes_syngraph; exists synset;
    (split_and!; [done|done|]); by eapply list_elem_of_lookup_2.
Qed.

(** X1: every node of a built graph is a single word (it holds neither an
    underscore nor a hyphen) and has a neighbour, and the two ends of every
    adjacency are nodes: the builder leaves no isolated word and no
    dangling neighbour. *)
Theorem syngraph_nodes synsets :
  (∀ m, m ∈ nx.nodes (syngraph synsets) →
     (("_"%char ∉ list_ascii_of_string m) ∧ ("-"%char ∉ list_ascii_of_string m)) ∧
     ∃ b, nx.has_edge (syngraph synsets) m b) ∧
  (∀ a b, nx.has_edge (syngraph synsets) a b →
     a ∈ nx.nodes (syngraph synsets) ∧ b ∈ nx.nodes (syngraph synsets)).
Proof.
  split.
  - intros m Hm. split.
    + apply is_single_word_spec. by apply (syngraph_node_single synsets).
    + by apply syngraph_node_neighbour.
  - apply has_edge_syngraph_nodes.
Qed.

(** X2: a synset that is already in the list adds nothing, wherever it is
    repeated: edges are added once. *)
Theorem syngraph_repeat synsets synsets' synset :
  synset ∈ synsets →
  syngraph (synsets ++ synset :: synsets') = syngraph (synsets ++ synsets').
Proof.
  intros Hin. unfold syngraph. rewrite !foldl_app. cbn [foldl].
  fold (syngraph synsets). by rewrite add_synset_known.
Qed.

Lemma syngraph_repeat_witness :
  ["change"; "transform"] ∈ change_synsets ∧
  syngraph (change_synsets ++ ["change"; "transform"] :: [["alter"; "vary"]])
  = syngraph (change_synsets ++ [["alter"; "vary"]]).
Proof.
  assert (["change"; "transform"] ∈ change_synsets) as Hin
    by (apply (bool_decide_unpack _); vm_compute; exact I).
  split; [exact Hin|]. exact (syngraph_repeat _ _ _ Hin).
Defined.

(** X3: the built graph is empty exactly when no synset keeps two lemma
    names; in particular an empty list of synsets gives the empty graph. *)
Theorem syngraph_empty synsets :
  syngraph synsets = nx.empty ↔
  ∀ synset, synset ∈ synsets → length (lemma_names synset) < 2.
Proof.
  split.
  - intros Hempty synset Hin.
    destruct (decide (length (lemma_names synset) < 2)) as [|Hlen]; [done|].
    destruct (lemma_names synset) as [|m names] eqn:Hnames; [simpl in Hlen; lia|].
    assert (m ∈ nx.nodes (syngraph synsets)) as Hm.
    { apply nodes_syngraph. exists synset. rewrite Hnames.
      split_and!; [done|simpl in *; lia|left]. }
    rewrite Hempty in Hm. by apply elem_of_nil in Hm.
  - intros Hshort. destruct (syngraph synsets) as [|[m x] G] eqn:HG; [done|].
    assert (m ∈ nx.nodes (syngraph synsets)) as Hm by (rewrite HG; left).
    apply nodes_syngraph in Hm as (synset & Hin & Hlen & _).
    specialize (Hshort synset Hin). lia.
Qed.


Lemma syngraph_nodes_witness :
  "change" ∈ nx.nodes (syngraph change_synsets) ∧
  (("_"%char ∉ list_ascii_of_string "change") ∧
   ("-"%char ∉ list_ascii_of_string "change")) ∧
  ∃ b, nx.has_edge (syngraph change_synsets) "change" b.
Proof.
  assert ("change" ∈ nx.nodes (syngraph change_synsets)) as Hin
    by (apply (bool_decide_unpack _); vm_compute; exact I).
  split; [exact Hin|]. exact (proj1 (syngraph_nodes change_synsets) _ Hin).
Defined.

Lemma syngraph_empty_witness :
  (∀ synset, synset ∈ [["ice_cream"; "gelato"]; ["sorbet"]] →
     length (lemma_names synset) < 2) ∧
  syngraph [["ice_cream"; "gelato"]; ["sorbet"]] = nx.empty.
Proof.
  assert (∀ synset, synset ∈ [["ice_cream"; "gelato"]; ["sorbet"]] →
     length (lemma_names synset) < 2) as Hshort.
  { apply Forall_forall. apply (bool_decide_unpack _). vm_compute. exact I. }
  split; [exact Hshort|]. exact (proj2 (syngraph_empty _) Hshort).
Defined.

(** * More on the splitter *)

Section splitter_more.
Implicit Types (s : Split) (e : string * string) (edges : list (string * string)).

Lemma elem_of_endpoints edges x :
  x ∈ endpoints edges ↔ ∃ e, e ∈ edges ∧ (x = e.1 ∨ x = e.2).
Proof.
  unfold endpoints. rewrite elem_of_union, !elem_of_list_to_set, !list_elem_of_fmap.
  naive_solver.
Qed.

Lemma endpoints_app edges edges' :
  endpoints (edges ++ edges') = endpoints edges ∪ endpoints edges'.
Proof. unfold endpoints. rewrite !fmap_app. set_solver. Qed.

Lemma splits_as_split_of c m graph ratio :
  dict_get weights c = Some m → splits_as c graph ratio (split_of m graph ratio).
Proof. intros Hm g. by apply split_loop_weighted. Qed.

Lemma splits_as_cases c graph ratio s :
  splits_as c graph ratio s →
  (∃ m, dict_get weights c = Some m ∧ s = split_of m graph ratio) ∨
  (nx.edges graph = [] ∧ s = empty_split).
Proof.
  intros Hs. specialize (Hs zero_tape). unfold split_graph in Hs.
  destruct (dict_get weights c) as [m|] eqn:Hm.
  - left. exists m. split; [done|].
    rewrite (split_loop_weighted _ m) in Hs by done. by injection Hs.
  - right. destruct (nx.edges graph) as [|e edges]; [by injection Hs|].
    by rewrite split_loop_unweighted in Hs.
Qed.

(** What every split the splitter returns looks like. *)
Lemma splits_as_inv c graph ratio s :
  splits_as c graph ratio s →
  train_edges s ++ test_edges s = nx.edges graph ∧
  train_words s = endpoints (train_edges s) ∧
  test_words s = endpoints (test_edges s).
Proof.
  intros [(m & Hm & ->)|[Hnil ->]]%splits_as_cases.
  - unfold split_of.
    destruct (split_prefix (train_len_of graph ratio) m (nx.edges graph))
      as (j & _ & Htr & Hte & Htw & Htew & _).
    rewrite Htr, Hte, take_drop. by rewrite Htw, Htew.
  - rewrite Hnil. split_and!; [done|set_solver..].
Qed.

Lemma size_pair_union (X : gset string) x y : size (X ∪ {[x; y]}) ≤ size X + 2.
Proof.
  rewrite size_union_alt.
  assert (size ({[x; y]} ∖ X : gset string) ≤ size ({[x; y]} : gset string)) as H1
    by (apply subseteq_size; set_solver).
  assert (size ({[x; y]} : gset string) ≤ 2) as H2.
  { rewrite size_union_alt, size_singleton.
    assert (size ({[y]} ∖ {[x]} : gset string) ≤ size ({[y]} : gset string))
      by (apply subseteq_size; set_solver).
    rewrite size_singleton in *. lia. }
  lia.
Qed.

Lemma below_threshold_spec train_len w s :
  below_threshold train_len w s = true ↔
  (inject_Z (Z.of_nat (size (train_words s))) < float_mul (inject_Z train_len) w)%Q.
Proof. unfold below_threshold. by rewrite bool_decide_eq_true. Qed.

Lemma train_words_bound train_len w edges :
  let s := foldl (route train_len w) empty_split edges in
  train_edges s ≠ [] →
  (inject_Z (Z.of_nat (size (train_words s)))
   < float_mul (inject_Z train_len) w + 2)%Q.
Proof.
  induction edges as [|[x y] edges IH] using rev_ind; [done|].
  rewrite foldl_app. cbn [foldl] in *.
  set (s := foldl (route train_len w) empty_split edges) in *.
  destruct (below_threshold train_len w s) eqn:Hb.
  - rewrite route_train by done. simpl. intros _.
    apply below_threshold_spec in Hb.
    pose proof (size_pair_union (train_words s) x y) as Hsize.
    assert (inject_Z (Z.of_nat (size (train_words s ∪ {[x; y]})))
            <= inject_Z (Z.of_nat (size (train_words s))) + 2)%Q as Hle.
    { replace 2%Q with (inject_Z 2) by done.
      rewrite <- inject_Z_plus, <- Zle_Qle. lia. }
    lra.
  - rewrite route_test by done. simpl. apply IH.
Qed.

Lemma loop_state_train_words train_len w edges i :
  train_words (loop_state train_len w edges i) ⊆ endpoints edges.
Proof.
  unfold loop_state.
  destruct (split_prefix train_len w (take i edges)) as (j & _ & _ & _ & -> & _).
  intros x (e & He & Hx)%elem_of_endpoints. apply elem_of_endpoints.
  exists e. split; [|done].
  apply list_elem_of_lookup in He as [n Hn].
  apply lookup_take_Some in Hn as [Hn _]. apply lookup_take_Some in Hn as [Hn _].
  by eapply list_elem_of_lookup_2.
Qed.

End splitter_more.

Lemma endpoints_syngraph synsets :
  endpoints (nx.edges (syngraph synsets)) = list_to_set (nx.nodes (syngraph synsets)).
Proof.
  apply set_eq. intros x. rewrite elem_of_endpoints, elem_of_list_to_set. split.
  - intros ([a b] & He & Hx).
    apply edges_has_edge in He; [|apply wf_syngraph].
    apply has_edge_syngraph_nodes in He as [Ha Hb].
    by destruct Hx as [-> | ->].
  - intros Hx. destruct (syngraph_node_neighbour synsets x Hx) as (b & Hb).
    destruct (has_edge_edges _ _ _ Hb (has_edge_syngraph_sym _ _ _ Hb)) as [He|He].
    + exists (x, b). split; [done|by left].
    + exists (b, x). split; [done|by right].
Qed.

(** X4: while some edge is in train, [train_words] holds fewer than the
    threshold plus two words: the split overshoots the threshold by one
    edge at most. *)
Theorem train_words_overshoot c m graph ratio :
  dict_get weights c = Some m →
  ∃ s, splits_as c graph ratio s ∧
    (train_edges s ≠ [] →
     (inject_Z (Z.of_nat (size (train_words s)))
      < code_threshold ratio m (length (nx.nodes graph)) + 2)%Q).
Proof.
  intros Hm. exists (split_of m graph ratio).
  split; [by apply splits_as_split_of|]. apply train_words_bound.
Qed.

(** X5: on a built graph, when the threshold is above the number of words,
    every edge goes to train: the test split is empty, no word is in both
    splits and [train_words] is the whole vocabulary.  This is the case of
    the verbs (weight 1.15) with ratio 1. *)
Theorem split_all_train c m synsets ratio :
  dict_get weights c = Some m →
  (inject_Z (Z.of_nat (length (nx.nodes (syngraph synsets))))
   < code_threshold ratio m (length (nx.nodes (syngraph synsets))))%Q →
  ∃ s, splits_as c (syngraph synsets) ratio s ∧
    train_edges s = nx.edges (syngraph synsets) ∧ test_edges s = [] ∧
    test_words s = ∅ ∧ intersection s = ∅ ∧
    train_words s = list_to_set (nx.nodes (syngraph synsets)).
Proof.
  intros Hm Hthr. set (graph := syngraph synsets) in *.
  exists (split_of m graph ratio). split; [by apply splits_as_split_of|].
  unfold split_of.
  destruct (split_prefix (train_len_of graph ratio) m (nx.edges graph))
    as (j & Hj & Htr & Hte & Htw & Htew & _ & Hiff).
  set (s := foldl _ _ _) in *.
  assert (j = length (nx.edges graph)) as ->.
  { destruct (decide (j < length (nx.edges graph))) as [Hlt|]; [|lia].
    exfalso. apply (Nat.lt_irrefl j). apply Hiff; [done|].
    apply below_threshold_spec.
    eapply Qle_lt_trans; [|exact Hthr]. rewrite <- Zle_Qle.
    apply inj_le.
    etrans; [apply subseteq_size, loop_state_train_words|].
    unfold graph. rewrite endpoints_syngraph.
    rewrite size_list_to_set; [done|]. apply wf_syngraph. }
  rewrite firstn_all in Htr, Htw. rewrite drop_all in Hte, Htew.
  split_and!; [done|done| | |].
  - rewrite Htew. set_solver.
  - unfold intersection. rewrite Htew. set_solver.
  - rewrite Htw. apply endpoints_syngraph.
Qed.

Lemma split_all_train_witness :
  dict_get weights "verb" = Some 1.15%Q ∧
  (inject_Z (Z.of_nat (length (nx.nodes (syngraph change_synsets))))
   < code_threshold 1 1.15 (length (nx.nodes (syngraph change_synsets))))%Q ∧
  ∃ s, splits_as "verb" (syngraph change_synsets) 1 s ∧
    train_edges s = nx.edges (syngraph change_synsets) ∧ test_edges s = [] ∧
    test_words s = ∅ ∧ intersection s = ∅ ∧
    train_words s = list_to_set (nx.nodes (syngraph change_synsets)).
Proof.
  assert (inject_Z (Z.of_nat (length (nx.nodes (syngraph change_synsets))))
   < code_threshold 1 1.15 (length (nx.nodes (syngraph change_synsets))))%Q as Hthr
    by (vm_compute; reflexivity).
  split_and!; [reflexivity|exact Hthr|].
  exact (split_all_train "verb" 1.15 change_synsets 1 eq_refl Hthr).
Defined.

(** X6: when the graph has an edge, no edge at all goes to train exactly
    when the threshold is not positive, as when [int] truncates
    |all_vertices|·r to 0; then every edge goes to test. *)
Theorem split_all_test c m graph ratio :
  dict_get weights c = Some m →
  nx.edges graph ≠ [] →
  ∃ s, splits_as c graph ratio s ∧
    (train_edges s = [] ↔
     (code_threshold ratio m (length (nx.nodes graph)) <= 0)%Q) ∧
    (train_edges s = [] → test_edges s = nx.edges graph ∧ train_words s = ∅).
Proof.
  intros Hm Hne. exists (split_of m graph ratio).
  split; [by apply splits_as_split_of|]. unfold split_of.
  destruct (split_prefix (train_len_of graph ratio) m (nx.edges graph))
    as (j & Hj & Htr & Hte & Htw & Htew & _ & Hiff).
  set (s := foldl _ _ _) in *.
  assert (0 < length (nx.edges graph)) as Hlen
    by (destruct (nx.edges graph); simpl; [done|lia]).
  specialize (Hiff 0 Hlen). rewrite below_threshold_spec in Hiff.
  change (loop_state _ _ _ 0) with empty_split in Hiff.
  change (train_words empty_split) with (∅ : gset string) in Hiff.
  rewrite size_empty in Hiff. change (inject_Z (Z.of_nat 0)) with 0%Q in Hiff.
  assert (train_edges s = [] ↔ j = 0) as Hj0.
  { rewrite Htr. split; [|by intros ->].
    destruct j; [done|]. destruct (nx.edges graph); [done|]. done. }
  split.
  - rewrite Hj0. unfold code_threshold.
    change (int _) with (train_len_of graph ratio).
    split.
    + intros ->. apply Qnot_lt_le. intros Hlt. apply Hiff in Hlt. lia.
    + intros Hle. destruct j; [done|]. exfalso.
      assert (0 < S j) as Hpos%Hiff by lia. lra.
  - intros ->%Hj0. rewrite Hte, Htw. split; [by rewrite drop_0|set_solver].
Qed.

Lemma train_words_overshoot_witness :
  dict_get weights "adjective" = Some 1.0%Q ∧
  ∃ s, splits_as "adjective" (syngraph ten_synsets) 0.7 s ∧
    (train_edges s ≠ [] →
     (inject_Z (Z.of_nat (size (train_words s)))
      < code_threshold 0.7 1.0 (length (nx.nodes (syngraph ten_synsets))) + 2)%Q).
Proof.
  split; [reflexivity|].
  exact (train_words_overshoot "adjective" 1.0 (syngraph ten_synsets) 0.7 eq_refl).
Defined.

Lemma split_all_test_witness :
  dict_get weights "noun" = Some 1.0%Q ∧
  nx.edges (syngraph run_synsets) ≠ [] ∧
  ∃ s, splits_as "noun" (syngraph run_synsets) 0.3 s ∧
    (train_edges s = [] ↔
     (code_threshold 0.3 1.0 (length (nx.nodes (syngraph run_synsets))) <= 0)%Q) ∧
    (train_edges s = [] →
     test_edges s = nx.edges (syngraph run_synsets) ∧ train_words s = ∅).
Proof.
  assert (nx.edges (syngraph run_synsets) ≠ []) as Hne
    by (vm_compute; discriminate).
  split_and!; [reflexivity|exact Hne|].
  exact (split_all_test "noun" 1.0 (syngraph run_synsets) 0.3 eq_refl Hne).
Defined.

(** X7: on a built graph every word lands in [train_words] or in
    [test_words], and the words in both are exactly those that end both a
    train edge and a test edge. *)
Theorem split_words_cover c m synsets ratio :
  dict_get weights c = Some m →
  ∃ s, splits_as c (syngraph synsets) ratio s ∧
    train_words s ∪ test_words s = list_to_set (nx.nodes (syngraph synsets)) ∧
    ∀ x, x ∈ intersection s ↔
      (∃ e, e ∈ train_edges s ∧ (x = e.1 ∨ x = e.2)) ∧
      (∃ e, e ∈ test_edges s ∧ (x = e.1 ∨ x = e.2)).
Proof.
  intros Hm. exists (split_of m (syngraph synsets) ratio).
  pose proof (splits_as_split_of c m (syngraph synsets) ratio Hm) as Hs.
  split; [done|].
  destruct (splits_as_inv _ _ _ _ Hs) as (Happ & Htw & Htew).
  split.
  - rewrite Htw, Htew, <- endpoints_app, Happ. apply endpoints_syngraph.
  - intros x. unfold intersection.
    by rewrite elem_of_intersection, Htw, Htew, !elem_of_endpoints.
Qed.

Lemma split_words_cover_witness :
  dict_get weights "noun" = Some 1.0%Q ∧
  ∃ s, splits_as "noun" (syngraph change_synsets) 1 s ∧
    train_words s ∪ test_words s = list_to_set (nx.nodes (syngraph change_synsets)) ∧
    ∀ x, x ∈ intersection s ↔
      (∃ e, e ∈ train_edges s ∧ (x = e.1 ∨ x = e.2)) ∧
      (∃ e, e ∈ test_edges s ∧ (x = e.1 ∨ x = e.2)).
Proof.
  split; [reflexivity|].
  exact (split_words_cover "noun" 1.0 change_synsets 1 eq_refl).
Defined.

(** * Which exceptions a run can end in *)

Section exceptions.
Implicit Types (E : Exception → Prop).

Lemma gen_exc_ret {A} E (Q : A → Prop) a : Q a → gen_exc (mret a) E Q.
Proof. by intros Ha g. Qed.

Lemma gen_exc_raise {A} E (Q : A → Prop) e : E e → gen_exc (raise e) E Q.
Proof. by intros He g. Qed.

Lemma gen_exc_yield E r : gen_exc (yield r) E (λ _, True).
Proof. by intros g. Qed.

Lemma gen_exc_bind {A B} E (Q : A → Prop) (R : B → Prop) (m : Gen A) (f : A → Gen B) :
  gen_exc m E Q → (∀ a, Q a → gen_exc (f a) E R) → gen_exc (m ≫= f) E R.
Proof.
  intros Hm Hf g. specialize (Hm g). unfold mbind, Gen_bind. cbv zeta.
  destruct (result (m g)) as [a|e]; simpl; [|done]. apply (Hf a Hm).
Qed.

Lemma gen_exc_mono {A} E E' (Q Q' : A → Prop) (m : Gen A) :
  gen_exc m E Q → (∀ e, E e → E' e) → (∀ a, Q a → Q' a) → gen_exc m E' Q'.
Proof.
  intros Hm HE HQ g. specialize (Hm g). destruct (result (m g)); auto.
Qed.

Lemma gen_exc_for_each {A} E (l : list A) (body : A → Gen ()) :
  (∀ x, x ∈ l → gen_exc (body x) E (λ _, True)) →
  gen_exc (for_each l body) E (λ _, True).
Proof.
  induction l as [|x l IH]; intros Hbody; simpl.
  - by apply gen_exc_ret.
  - eapply gen_exc_bind; [apply Hbody; left|].
    intros _ _. apply IH. intros y Hy. apply Hbody. by right.
Qed.

Lemma gen_exc_choices population k :
  gen_exc (choices population k)
    (λ e, e = IndexError ∧ k ≠ 0 ∧ population = []) (λ _, True).
Proof.
  assert (gen_exc (choices population k)
    (λ e, e = IndexError ∧ population = []) (λ _, True)) as Hk.
  { induction k as [|k IH]; [by apply gen_exc_ret|]. intros g.
    cbn [choices]. unfold mbind at 1, Gen_bind at 1. cbv zeta.
    cbn [result state yielded random].
    destruct (population !! _) as [w|] eqn:Hw.
    - apply (gen_exc_bind _ (λ _, True) _ _ _ IH). intros ws _.
      by apply gen_exc_ret.
    - simpl. split; [done|]. destruct population as [|w0 population]; [done|].
      apply lookup_ge_None in Hw.
      pose proof (random_index_lt (tape g (cursor g)) (length (w0 :: population))
        ltac:(simpl; lia)). lia. }
  destruct k; [by apply gen_exc_ret|].
  eapply gen_exc_mono; [exact Hk| |done]. by intros e [-> ->].
Qed.

Lemma gen_exc_neighbors_of graph w E :
  w ∈ nx.nodes graph →
  gen_exc (neighbors_of graph w) E (λ nbrs, nx.neighbors graph w = Some nbrs).
Proof.
  intros [nbrs Hn]%lookup_nodes. unfold neighbors_of, nx.neighbors.
  rewrite Hn. by apply gen_exc_ret.
Qed.

Lemma gen_exc_sample_edge c graph s k sp e :
  e.1 ∈ nx.nodes graph →
  gen_exc (sample_edge c graph s k sp e)
    (λ x, x = IndexError ∧ k ≠ 0) (λ _, True).
Proof.
  destruct e as [w1 w2]. intros Hw1. unfold sample_edge.
  case_decide; [by apply gen_exc_ret|].
  case_decide; [by apply gen_exc_ret|].
  eapply gen_exc_bind; [by apply gen_exc_neighbors_of|]. intros nbrs _.
  eapply gen_exc_bind.
  { eapply gen_exc_mono; [apply gen_exc_choices| |done]. by intros x (-> & ? & _). }
  intros ws _. eapply gen_exc_bind; [apply gen_exc_yield|]. intros _ _.
  apply gen_exc_for_each. intros w3 _. apply gen_exc_yield.
Qed.

Lemma edges_start_node graph e : e ∈ nx.edges graph → e.1 ∈ nx.nodes graph.
Proof. destruct e. apply edges_from_nodes. Qed.

Lemma gen_exc_sample_split c graph s k :
  (∀ e, e ∈ train_edges s ++ test_edges s → e.1 ∈ nx.nodes graph) →
  gen_exc (sample_split c graph s k) (λ x, x = IndexError ∧ k ≠ 0) (λ _, True).
Proof.
  intros Hnodes. unfold sample_split.
  apply gen_exc_for_each. intros [data sp] Hin.
  apply gen_exc_for_each. intros e He. apply gen_exc_sample_edge, Hnodes.
  apply elem_of_app.
  apply elem_of_cons in Hin as [[= -> ->]|Hin]; [by left|].
  apply list_elem_of_singleton in Hin as [= -> ->]. by right.
Qed.

Lemma gen_exc_split_graph c graph ratio :
  gen_exc (split_graph c graph ratio)
    (λ x, x = KeyError c ∧ dict_get weights c = None ∧ nx.edges graph ≠ [])
    (splits_as c graph ratio).
Proof.
  intros g. unfold splits_as, split_graph.
  destruct (dict_get weights c) as [w|] eqn:Hw.
  - rewrite (split_loop_weighted _ w) by done. simpl.
    intros g'. by apply split_loop_weighted.
  - destruct (nx.edges graph) as [|e edges] eqn:He; [by intros g'|].
    by rewrite split_loop_unweighted.
Qed.

Lemma gen_exc_dataset_of_graph ratio k c graph :
  gen_exc (dataset_of_graph ratio k c graph)
    (λ x, (x = IndexError ∧ k ≠ 0) ∨
          (x = KeyError c ∧ dict_get weights c = None ∧ nx.edges graph ≠ []))
    (λ _, True).
Proof.
  unfold dataset_of_graph. eapply gen_exc_bind.
  - eapply gen_exc_mono; [apply gen_exc_split_graph| |done]. by right.
  - intros s Hs. eapply gen_exc_mono; [apply gen_exc_sample_split| |done].
    + intros e He. apply edges_start_node.
      by rewrite <- (proj1 (splits_as_inv _ _ _ _ Hs)).
    + by left.
Qed.

Lemma gen_exc_create_dataset syn_graphs ratio k :
  gen_exc (create_dataset syn_graphs ratio k)
    (λ x, (x = IndexError ∧ k ≠ 0) ∨
          ∃ c graph, (c, graph) ∈ syn_graphs ∧ x = KeyError c ∧
            dict_get weights c = None ∧ nx.edges graph ≠ [])
    (λ _, True).
Proof.
  unfold create_dataset. apply gen_exc_for_each. intros [c graph] Hin.
  eapply gen_exc_mono; [apply gen_exc_dataset_of_graph| |done].
  intros x [?|?]; [by left|right]. by exists c, graph.
Qed.

End exceptions.

(** X8: a run never ends in [NetworkXError].  It can only end in
    [IndexError], and then negatives were asked for, or in the [KeyError] of
    a part of speech of the input that has no weight and whose graph has an
    edge. *)
Theorem create_dataset_exceptions syn_graphs ratio k g e :
  result (create_dataset syn_graphs ratio k g) = Raised e →
  (e = IndexError ∧ k ≠ 0) ∨
  ∃ c graph, (c, graph) ∈ syn_graphs ∧ e = KeyError c ∧
    dict_get weights c = None ∧ nx.edges graph ≠ [].
Proof.
  intros He. pose proof (gen_exc_create_dataset syn_graphs ratio k g) as H.
  by rewrite He in H.
Qed.

Lemma create_dataset_exceptions_witness :
  result (create_dataset [("verb", syngraph change_synsets)] 1 1 zero_tape)
    = Raised IndexError ∧
  ((IndexError = IndexError ∧ 1 ≠ 0) ∨
   ∃ c graph, (c, graph) ∈ [("verb", syngraph change_synsets)] ∧
     IndexError = KeyError c ∧
     dict_get weights c = None ∧ nx.edges graph ≠ []).
Proof.
  assert (result (create_dataset [("verb", syngraph change_synsets)] 1 1 zero_tape)
    = Raised IndexError) as He by (vm_compute; reflexivity).
  split; [exact He|]. exact (create_dataset_exceptions _ _ _ _ _ He).
Defined.

(** * Whole runs *)

Section whole_runs.
Implicit Types (s : Split) (graph : nx.Graph) (c sp : string).

Lemma runs_or_raises {A} (m : Gen A) g :
  (∃ out a g', runs m g out a g') ∨ (∃ out e, raises m g out e).
Proof.
  unfold runs, raises. destruct (m g) as [out g' [a|e]]; simpl; [left|right]; eauto.
Qed.

Lemma runs_bind_inv {A B} (m : Gen A) (f : A → Gen B) g out b g'' :
  runs (m ≫= f) g out b g'' →
  ∃ out1 a g' out2, runs m g out1 a g' ∧ runs (f a) g' out2 b g'' ∧ out = out1 ++ out2.
Proof.
  unfold runs, mbind, Gen_bind. cbv zeta.
  destruct (m g) as [out1 g' [a|e]]; simpl; [|done].
  destruct (f a g') as [out2 g2 r2] eqn:Hf; simpl. intros [= <- <- ->].
  by exists out1, a, g', out2.
Qed.

Lemma runs_for_each_app {A} (l1 l2 : list A) body g out1 g1 out2 g2 :
  runs (for_each l1 body) g out1 () g1 →
  runs (for_each l2 body) g1 out2 () g2 →
  runs (for_each (l1 ++ l2) body) g (out1 ++ out2) () g2.
Proof.
  revert g out1. induction l1 as [|x l1 IH]; intros g out1 H1 H2.
  - unfold runs in H1. simpl in H1. by injection H1 as <- <-.
  - cbn [for_each app] in *.
    apply runs_bind_inv in H1 as (o1 & [] & g' & o2 & Hx & Hl & ->).
    rewrite <- app_assoc. eapply runs_bind; [done|]. by eapply IH.
Qed.

Lemma raises_for_each_app {A} (l1 l2 : list A) body g out1 g1 out2 e :
  runs (for_each l1 body) g out1 () g1 →
  raises (for_each l2 body) g1 out2 e →
  raises (for_each (l1 ++ l2) body) g (out1 ++ out2) e.
Proof.
  revert g out1. induction l1 as [|x l1 IH]; intros g out1 H1 H2.
  - unfold runs in H1. simpl in H1. by injection H1 as <- <-.
  - cbn [for_each app] in *.
    apply runs_bind_inv in H1 as (o1 & [] & g' & o2 & Hx & Hl & ->).
    rewrite <- app_assoc. eapply raises_bind_r; [done|]. by eapply IH.
Qed.

Lemma dataset_of_graph_no_weight ratio k c graph g :
  dict_get weights c = None → nx.edges graph ≠ [] →
  raises (dataset_of_graph ratio k c graph) g [] (KeyError c).
Proof.
  intros Hw Hne. unfold dataset_of_graph. apply raises_bind_l.
  unfold raises, split_graph. destruct (nx.edges graph) as [|e edges]; [done|].
  by rewrite split_loop_unweighted.
Qed.

Lemma dataset_of_graph_no_edges ratio k c graph g :
  nx.edges graph = [] → runs (dataset_of_graph ratio k c graph) g [] () g.
Proof.
  intros Hnil. unfold dataset_of_graph, split_graph. rewrite Hnil.
  apply (runs_bind _ _ g [] empty_split g [] () g); [done|]. done.
Qed.

Lemma choices_runs_any population k g :
  k = 0 ∨ population ≠ [] →
  ∃ ws g', runs (choices population k) g [] ws g' ∧
    length ws = k ∧ Forall (.∈ population) ws.
Proof.
  intros [->|Hne]; [|by apply choices_runs].
  exists [], g. by split_and!.
Qed.

Lemma sample_edge_passes c graph s k sp e g :
  passes s e → e.1 ∈ nx.nodes graph →
  k = 0 ∨ pool graph s sp e.1 ≠ [] →
  ∃ ws g', (length ws = k ∧ Forall (.∈ pool graph s sp e.1) ws) ∧
    runs (sample_edge c graph s k sp e) g (edge_records c sp e ws) () g'.
Proof.
  destruct e as [w1 w2]. intros (Hed & H1 & H2) [nbrs Hnbrs]%lookup_nodes Hk.
  unfold pool, nx.neighbors in *. simpl in *. rewrite Hnbrs in *.
  destruct (choices_runs_any _ k g Hk) as (ws & g' & Hruns & Hlen & Hall).
  exists ws, g'. split; [done|].
  unfold sample_edge. rewrite decide_False by done.
  rewrite decide_False by tauto.
  unfold neighbors_of, nx.neighbors. rewrite Hnbrs.
  apply (runs_bind _ _ g [] nbrs g _ _ _ (runs_ret _ _)).
  apply (runs_bind _ _ g [] ws g' _ _ _ Hruns).
  apply (runs_bind _ _ g' [_] () g' _ _ _ (runs_yield _ _)).
  apply runs_for_each_yield.
Qed.

Lemma sample_edge_fails c graph s k sp e g :
  ¬ passes s e → runs (sample_edge c graph s k sp e) g [] () g.
Proof.
  destruct e as [w1 w2]. unfold passes, sample_edge. simpl. intros Hno.
  case_decide; [done|]. case_decide; [done|]. tauto.
Qed.

Lemma sample_edge_no_pool c graph s k sp e g :
  passes s e → e.1 ∈ nx.nodes graph → k ≠ 0 → pool graph s sp e.1 = [] →
  raises (sample_edge c graph s k sp e) g [] IndexError.
Proof.
  destruct e as [w1 w2]. intros (Hed & H1 & H2) [nbrs Hnbrs]%lookup_nodes Hk.
  unfold pool, nx.neighbors. simpl in *. rewrite Hnbrs. intros Hpool.
  by eapply sample_edge_empty_pool.
Qed.

Lemma shaped_nil c sp k pool_of : shaped c sp k pool_of [] [].
Proof. exists []. by split; [apply Forall2_nil|]. Qed.

Lemma shaped_cons c sp k pool_of e edges ws out :
  length ws = k ∧ Forall (.∈ pool_of e.1) ws →
  shaped c sp k pool_of edges out →
  shaped c sp k pool_of (e :: edges) (edge_records c sp e ws ++ out).
Proof.
  intros Hws (wss & Hall & ->). exists (ws :: wss).
  split; [by apply Forall2_cons|done].
Qed.

(** The loop over the edges of one split, when no pool is exhausted. *)
Lemma sample_edges_run c graph s k sp data g :
  (∀ e, e ∈ data → e.1 ∈ nx.nodes graph) →
  (k = 0 ∨ ∀ e, e ∈ data → passes s e → pool graph s sp e.1 ≠ []) →
  ∃ out g', runs (for_each data (sample_edge c graph s k sp)) g out () g' ∧
    shaped c sp k (pool graph s sp) (filter (passes s) data) out.
Proof.
  revert g. induction data as [|e data IH]; intros g Hnodes Hpools.
  - exists [], g. split; [done|apply shaped_nil].
  - assert (∀ g1, ∃ out g', runs (for_each data (sample_edge c graph s k sp)) g1 out () g' ∧
      shaped c sp k (pool graph s sp) (filter (passes s) data) out) as Hrest.
    { intros g1. apply IH; [intros ??; apply Hnodes; by right|].
      destruct Hpools as [?|Hpools]; [by left|right].
      intros ???. apply Hpools; [by right|done]. }
    destruct (decide (passes s e)) as [Hpass|Hpass].
    + destruct (sample_edge_passes c graph s k sp e g Hpass) as (ws & g1 & Hws & He).
      { apply Hnodes. left. }
      { destruct Hpools as [?|Hpools]; [by left|right]. apply Hpools; [left|done]. }
      destruct (Hrest g1) as (out & g' & Hruns & Hshape).
      exists (edge_records c sp e ws ++ out), g'. split.
      * by eapply runs_for_each_cons.
      * rewrite filter_cons_True by done. by apply shaped_cons.
    + destruct (Hrest g) as (out & g' & Hruns & Hshape).
      exists out, g'. split.
      * apply (runs_for_each_cons e data _ g [] g out g'); [|done].
        by apply sample_edge_fails.
      * by rewrite filter_cons_False.
Qed.

(** The loop over the edges of one split, when a pool is exhausted. *)
Lemma sample_edges_raise c graph s k sp data g :
  (∀ e, e ∈ data → e.1 ∈ nx.nodes graph) →
  k ≠ 0 →
  (∃ e, e ∈ data ∧ passes s e ∧ pool graph s sp e.1 = []) →
  ∃ out, raises (for_each data (sample_edge c graph s k sp)) g out IndexError.
Proof.
  intros Hnodes Hk. revert g.
  induction data as [|e data IH]; intros g (bad & Hin & Hpass & Hpool).
  - by apply elem_of_nil in Hin.
  - destruct (runs_or_raises (sample_edge c graph s k sp e) g)
      as [(out & [] & g' & Hruns)|(out & x & Hraises)].
    + assert (bad ∈ data) as Hbad.
      { apply elem_of_cons in Hin as [Heq|]; [|done]. exfalso. subst e.
        pose proof (sample_edge_no_pool c graph s k sp bad g Hpass
          (Hnodes bad ltac:(left)) Hk Hpool) as [_ Hres].
        unfold runs in Hruns. by rewrite Hruns in Hres. }
      destruct (IH (λ e' He', Hnodes e' ltac:(by right)) g') as [out' Hout'];
        [by exists bad|].
      exists (out ++ out'). cbn [for_each]. by eapply raises_bind_r.
    + exists out. apply for_each_raises.
      pose proof (gen_exc_sample_edge c graph s k sp e (Hnodes e ltac:(left)) g) as Hexc.
      destruct Hraises as [Hy Hres]. rewrite Hres in Hexc.
      destruct Hexc as [-> _]. done.
Qed.

End whole_runs.

Lemma split_of_starts m graph ratio e :
  e ∈ train_edges (split_of m graph ratio) ++ test_edges (split_of m graph ratio) →
  e.1 ∈ nx.nodes graph.
Proof.
  unfold split_of.
  destruct (split_prefix (train_len_of graph ratio) m (nx.edges graph))
    as (j & _ & -> & -> & _).
  rewrite take_drop. apply edges_start_node.
Qed.

(** X9: a part of speech without a weight whose graph has an edge stops the
    run with [KeyError]: the records of the parts of speech before it are
    kept, nothing is yielded for it, and the parts of speech after it are
    never processed. *)
Theorem missing_weight syn_graphs syn_graphs' c graph ratio k g out g' :
  runs (create_dataset syn_graphs ratio k) g out () g' →
  dict_get weights c = None →
  nx.edges graph ≠ [] →
  raises (create_dataset (syn_graphs ++ (c, graph) :: syn_graphs') ratio k)
    g out (KeyError c).
Proof.
  intros Hruns Hw Hne. unfold create_dataset in *.
  rewrite <- (app_nil_r out). eapply raises_for_each_app; [exact Hruns|].
  apply for_each_raises. by apply dataset_of_graph_no_weight.
Qed.

Lemma missing_weight_witness :
  runs (create_dataset [("noun", syngraph run_synsets)] 1 1) zero_tape
    [run_positive; run_negative] () {| tape := λ _, 0%N; cursor := 1 |} ∧
  dict_get weights "adverb" = None ∧
  nx.edges (syngraph change_synsets) ≠ [] ∧
  raises (create_dataset ([("noun", syngraph run_synsets)] ++
            ("adverb", syngraph change_synsets) :: [("verb", syngraph size_synsets)]) 1 1)
    zero_tape [run_positive; run_negative] (KeyError "adverb").
Proof.
  assert (runs (create_dataset [("noun", syngraph run_synsets)] 1 1) zero_tape
    [run_positive; run_negative] () {| tape := λ _, 0%N; cursor := 1 |}) as Hruns
    by (vm_compute; reflexivity).
  assert (nx.edges (syngraph change_synsets) ≠ []) as Hne
    by (vm_compute; discriminate).
  split_and!; [exact Hruns|reflexivity|exact Hne|].
  exact (missing_weight [("noun", syngraph run_synsets)]
           [("verb", syngraph size_synsets)] "adverb" (syngraph change_synsets)
           1 1 zero_tape _ _ Hruns eq_refl Hne).
Defined.

(** X10: a graph without edges contributes no record and no exception,
    draws no random number, and needs no weight. *)
Theorem no_edges_no_records ratio k c graph g :
  nx.edges graph = [] →
  runs (dataset_of_graph ratio k c graph) g [] () g.
Proof. apply dataset_of_graph_no_edges. Qed.

Lemma no_edges_no_records_witness :
  nx.edges (syngraph [["ice_cream"; "gelato"]; ["sorbet"]]) = [] ∧
  runs (dataset_of_graph 0.5 1 "dessert"
          (syngraph [["ice_cream"; "gelato"]; ["sorbet"]])) zero_tape [] () zero_tape.
Proof.
  split; [reflexivity|].
  apply (no_edges_no_records 0.5 1 "dessert"). reflexivity.
Defined.

(** X11: when no negatives are asked for, or every edge that passes the two
    filters has a candidate, the run over a graph returns, and its output is
    the train edges that pass the filters, in order, then the test edges
    that pass them, each edge labelled 1 and followed at once by exactly [k]
    records labelled 0 that pair its first word with words of its pool. *)
Theorem sampler_output c m graph ratio k g :
  dict_get weights c = Some m →
  (k = 0 ∨ ∀ sp w1 w2, retained (split_of m graph ratio) sp w1 w2 →
             pool graph (split_of m graph ratio) sp w1 ≠ []) →
  ∃ out1 out2 g',
    runs (dataset_of_graph ratio k c graph) g (out1 ++ out2) () g' ∧
    shaped c "train" k (pool graph (split_of m graph ratio) "train")
      (filter (passes (split_of m graph ratio)) (train_edges (split_of m graph ratio))) out1 ∧
    shaped c "test" k (pool graph (split_of m graph ratio) "test")
      (filter (passes (split_of m graph ratio)) (test_edges (split_of m graph ratio))) out2.
Proof.
  intros Hm Hpools. set (s := split_of m graph ratio) in *.
  destruct (sample_edges_run c graph s k "train" (train_edges s) g)
    as (out1 & g1 & Hruns1 & Hshape1).
  { intros e He. apply (split_of_starts m graph ratio). apply elem_of_app. by left. }
  { destruct Hpools as [?|Hpools]; [by left|right].
    intros [w1 w2] He (Hed & H1 & H2). apply (Hpools "train" w1 w2).
    split_and!; [left|..]; done. }
  destruct (sample_edges_run c graph s k "test" (test_edges s) g1)
    as (out2 & g2 & Hruns2 & Hshape2).
  { intros e He. apply (split_of_starts m graph ratio). apply elem_of_app. by right. }
  { destruct Hpools as [?|Hpools]; [by left|right].
    intros [w1 w2] He (Hed & H1 & H2). apply (Hpools "test" w1 w2).
    split_and!; [right|..]; done. }
  exists out1, out2, g2. split; [|done].
  unfold dataset_of_graph.
  apply (runs_bind _ _ g [] s g (out1 ++ out2) () g2
           (splits_as_split_of c m graph ratio Hm g)).
  unfold sample_split.
  apply (runs_for_each_cons (train_edges s, "train") [(test_edges s, "test")]
           (λ '(data, split), for_each data (sample_edge c graph s k split))
           g out1 g1 out2 g2 Hruns1).
  rewrite <- (app_nil_r out2).
  by apply (runs_for_each_cons (test_edges s, "test") []
              (λ '(data, split), for_each data (sample_edge c graph s k split))
              g1 out2 g2 [] g2 Hruns2).
Qed.

Lemma sampler_output_witness :
  dict_get weights "noun" = Some 1.0%Q ∧
  (1 = 0 ∨ ∀ sp w1 w2, retained (split_of 1.0 (syngraph run_synsets) 1) sp w1 w2 →
             pool (syngraph run_synsets) (split_of 1.0 (syngraph run_synsets) 1) sp w1 ≠ []) ∧
  ∃ out1 out2 g',
    runs (dataset_of_graph 1 1 "noun" (syngraph run_synsets)) zero_tape (out1 ++ out2) () g' ∧
    shaped "noun" "train" 1 (pool (syngraph run_synsets) (split_of 1.0 (syngraph run_synsets) 1) "train")
      (filter (passes (split_of 1.0 (syngraph run_synsets) 1))
         (train_edges (split_of 1.0 (syngraph run_synsets) 1))) out1 ∧
    shaped "noun" "test" 1 (pool (syngraph run_synsets) (split_of 1.0 (syngraph run_synsets) 1) "test")
      (filter (passes (split_of 1.0 (syngraph run_synsets) 1))
         (test_edges (split_of 1.0 (syngraph run_synsets) 1))) out2.
Proof.
  set (s := split_of 1.0 (syngraph run_synsets) 1).
  assert (1 = 0 ∨ ∀ sp w1 w2, retained s sp w1 w2 →
             pool (syngraph run_synsets) s sp w1 ≠ []) as Hpools.
  { right. intros sp w1 w2 (Hsp & Hed & H1 & H2).
    assert ((sp, w1, w2) = ("train", "run", "runts")) as [= -> -> ->].
    { destruct Hsp as [[-> Hin]|[-> Hin]].
      - replace (train_edges s) with [("run", "runts"); ("runts", "runs")] in Hin
          by (vm_compute; reflexivity).
        apply elem_of_cons in Hin as [[= -> ->]|Hin]; [done|].
        apply list_elem_of_singleton in Hin as [= -> ->].
        exfalso. apply Hed. vm_compute. lia.
      - replace (test_edges s) with (@nil (string * string)) in Hin
          by (vm_compute; reflexivity).
        by apply elem_of_nil in Hin. }
    vm_compute. discriminate. }
  split_and!; [reflexivity|exact Hpools|].
  exact (sampler_output "noun" 1.0 (syngraph run_synsets) 1 1 zero_tape eq_refl Hpools).
Defined.

(** X12: when negatives are asked for and some edge that passes the two
    filters has no candidate, the run over the graph ends in [IndexError],
    whatever the seed. *)
Theorem exhausted_pool_raises c m graph ratio k g sp w1 w2 :
  dict_get weights c = Some m →
  k ≠ 0 →
  retained (split_of m graph ratio) sp w1 w2 →
  pool graph (split_of m graph ratio) sp w1 = [] →
  ∃ out, raises (dataset_of_graph ratio k c graph) g out IndexError.
Proof.
  intros Hm Hk (Hsp & Hpass) Hpool. set (s := split_of m graph ratio) in *.
  assert (∀ sp' data g1, (∀ e, e ∈ data → e ∈ train_edges s ++ test_edges s) →
    sp' = sp → (w1, w2) ∈ data →
    ∃ out, raises (for_each data (sample_edge c graph s k sp')) g1 out IndexError)
    as Hloop.
  { intros sp' data g1 Hdata -> Hin. apply sample_edges_raise; [|done|].
    - intros e He. by apply (split_of_starts m graph ratio), Hdata.
    - by exists (w1, w2). }
  assert (∃ out, raises (sample_split c graph s k) g out IndexError) as [out Hout].
  { unfold sample_split. destruct Hsp as [[-> Hin]|[-> Hin]].
    - destruct (Hloop "train" (train_edges s) g) as [out Hout]; [|done|done|].
      { intros e He. apply elem_of_app. by left. }
      exists out. by apply for_each_raises.
    - destruct (runs_or_raises
        (for_each (train_edges s) (sample_edge c graph s k "train")) g)
        as [(out1 & [] & g1 & Hruns)|(out1 & x & Hraises)].
      + destruct (Hloop "test" (test_edges s) g1) as [out2 Hout2]; [|done|done|].
        { intros e He. apply elem_of_app. by right. }
        exists (out1 ++ out2). cbn [for_each].
        eapply raises_bind_r; [exact Hruns|]. by apply raises_bind_l.
      + exists out1. apply for_each_raises.
        assert (gen_exc (for_each (train_edges s) (sample_edge c graph s k "train"))
          (λ x, x = IndexError ∧ k ≠ 0) (λ _, True)) as Hexc.
        { apply gen_exc_for_each. intros e He. apply gen_exc_sample_edge.
          apply (split_of_starts m graph ratio). apply elem_of_app. by left. }
        specialize (Hexc g). destruct Hraises as [Hy Hres]. rewrite Hres in Hexc.
        destruct Hexc as [-> _]. done. }
  exists out. unfold dataset_of_graph. rewrite <- (app_nil_l out).
  eapply raises_bind_r; [|exact Hout].
  apply (splits_as_split_of c m graph ratio Hm g).
Qed.

Lemma exhausted_pool_raises_witness :
  dict_get weights "verb" = Some 1.15%Q ∧ 1 ≠ 0 ∧
  retained (split_of 1.15 (syngraph change_synsets) 1) "train" "change" "alter" ∧
  pool (syngraph change_synsets) (split_of 1.15 (syngraph change_synsets) 1)
    "train" "change" = [] ∧
  ∃ out, raises (dataset_of_graph 1 1 "verb" (syngraph change_synsets))
           zero_tape out IndexError.
Proof.
  assert (retained (split_of 1.15 (syngraph change_synsets) 1) "train" "change" "alter")
    as Hret.
  { unfold retained. apply (bool_decide_unpack _). vm_compute. exact I. }
  assert (pool (syngraph change_synsets) (split_of 1.15 (syngraph change_synsets) 1)
    "train" "change" = []) as Hpool by (vm_compute; reflexivity).
  split_and!; [reflexivity|discriminate|exact Hret|exact Hpool|].
  exact (exhausted_pool_raises "verb" 1.15 (syngraph change_synsets) 1 1 zero_tape
           "train" "change" "alter" eq_refl ltac:(discriminate) Hret Hpool).
Defined.

(** * What the records say *)

Lemma splits_as_unique c graph ratio s s' :
  splits_as c graph ratio s → splits_as c graph ratio s' → s = s'.
Proof.
  intros Hs Hs'. specialize (Hs zero_tape). rewrite (Hs' zero_tape) in Hs.
  by injection Hs.
Qed.

Lemma retained_edge c graph ratio s sp w1 w2 :
  splits_as c graph ratio s → retained s sp w1 w2 →
  (w1, w2) ∈ nx.edges graph ∧
  (sp = "train" → w1 ∈ train_words s ∖ test_words s ∧ w2 ∈ train_words s ∖ test_words s) ∧
  (sp = "test" → w1 ∈ test_words s ∖ train_words s ∧ w2 ∈ test_words s ∖ train_words s).
Proof.
  intros (Happ & Htw & Htew)%splits_as_inv (Hsp & _ & H1 & H2).
  unfold intersection in *.
  assert (∀ l, (w1, w2) ∈ l → w1 ∈ endpoints l ∧ w2 ∈ endpoints l) as Hends.
  { intros l Hl. split; apply elem_of_endpoints; exists (w1, w2); auto. }
  rewrite <- Happ, elem_of_app.
  destruct Hsp as [[-> Hin]|[-> Hin]]; destruct (Hends _ Hin) as [Ha Hb];
    rewrite <- ?Htw, <- ?Htew in Ha, Hb.
  - split_and!; [by left| |done]. intros _. set_solver.
  - split_and!; [by right|done|]. intros _. set_solver.
Qed.

(** X13: every record labelled 1 is an edge of the graph of its part of
    speech, in the direction [graph.edges] yields it. *)
Theorem positives_are_edges syn_graphs ratio k g r :
  r ∈ yielded (create_dataset syn_graphs ratio k g) →
  synonym r = 1 →
  ∃ graph, (pos r, graph) ∈ syn_graphs ∧ (word1 r, word2 r) ∈ nx.edges graph.
Proof.
  intros (graph & s & Hin & Hs & Hr)%create_dataset_emitted Hlabel.
  exists graph. split; [done|].
  apply emitted_by_inv in Hr as (w2 & Hret & [[_ ->]|[? _]]); [|congruence].
  by destruct (retained_edge _ _ _ _ _ _ _ Hs Hret) as [He _].
Qed.

Lemma positives_are_edges_witness :
  run_positive ∈ yielded
    (create_dataset (get_syngraph_wordset [("noun", run_synsets)]) 1 1 zero_tape) ∧
  synonym run_positive = 1 ∧
  ∃ graph, (pos run_positive, graph) ∈ get_syngraph_wordset [("noun", run_synsets)] ∧
    (word1 run_positive, word2 run_positive) ∈ nx.edges graph.
Proof.
  assert (run_positive ∈ yielded
    (create_dataset (get_syngraph_wordset [("noun", run_synsets)]) 1 1 zero_tape))
    as Hin by (apply (bool_decide_unpack _); vm_compute; exact I).
  split_and!; [exact Hin|reflexivity|].
  exact (positives_are_edges _ _ _ _ _ Hin eq_refl).
Defined.

Lemma get_syngraph_wordset_elem pos_synsets c graph :
  (c, graph) ∈ get_syngraph_wordset pos_synsets →
  ∃ synsets, (c, synsets) ∈ pos_synsets ∧ graph = syngraph synsets.
Proof.
  unfold get_syngraph_wordset. intros ([c' synsets] & [= -> ->] & Hin)%list_elem_of_fmap.
  by exists synsets.
Qed.

(** X14: on built graphs the labels are sound for the input.  The two
    words of a record labelled 1 are different and stand together in a
    synset of the record's part of speech; the two words of a record
    labelled 0 stand together in no synset of it. *)
Theorem labels_sound pos_synsets ratio k g r :
  r ∈ yielded (create_dataset (get_syngraph_wordset pos_synsets) ratio k g) →
  ∃ synsets, (pos r, synsets) ∈ pos_synsets ∧
    (synonym r = 1 →
       word1 r ≠ word2 r ∧
       ∃ synset, synset ∈ synsets ∧ word1 r ∈ synset ∧ word2 r ∈ synset) ∧
    (synonym r = 0 →
       ∀ synset, synset ∈ synsets → ¬ (word1 r ∈ synset ∧ word2 r ∈ synset)).
Proof.
  intros (graph & s & Hin & Hs & Hr)%create_dataset_emitted.
  apply get_syngraph_wordset_elem in Hin as (synsets & Hin & ->).
  exists synsets. split; [done|].
  apply emitted_by_inv in Hr as (w2 & Hret & Hr).
  destruct (retained_edge _ _ _ _ _ _ _ Hs Hret) as (He & Htrain & Htest).
  pose proof (edges_has_edge _ _ _ (wf_syngraph synsets) He) as Hadj.
  split.
  - intros Hlabel. destruct Hr as [[_ ->]|[? _]]; [|congruence]. split.
    + destruct Hret as (_ & Hed & _). intros Heq. apply Hed. rewrite Heq.
      clear. unfold editdistance_eval.
      induction (list_ascii_of_string w2) as [|a l IH]; simpl; [lia|].
      by rewrite decide_True.
    + apply has_edge_syngraph in Hadj as (synset & i & j & Hs' & _ & Hi & Hj).
      exists synset. split; [done|].
      split; eapply (proj1 (elem_of_lemma_names synset _)), list_elem_of_lookup_2;
        done.
  - intros Hlabel synset Hsynset [H1 H2].
    destruct Hr as [[? _]|(_ & nbrs & Hnbrs & Hw3)]; [congruence|].
    apply elem_of_neg_words in Hw3 as (Hne & Hnot & _ & Hw3train & Hw3test).
    assert (word2 r ∈ nx.nodes (syngraph synsets)) as Hnode.
    { destruct (splits_as_inv _ _ _ _ Hs) as (Happ & Htw & Htew).
      assert (word2 r ∈ endpoints (nx.edges (syngraph synsets))) as Hend.
      { rewrite <- Happ, endpoints_app, <- Htw, <- Htew.
        destruct Hret as ([[Hsp _]|[Hsp _]] & _); set_solver. }
      apply elem_of_endpoints in Hend as ([a b] & Hab & Hend).
      apply edges_has_edge in Hab; [|apply wf_syngraph].
      apply has_edge_syngraph_nodes in Hab as [Ha Hb].
      by destruct Hend as [-> | ->]. }
    apply has_edge_syngraph_nodes in Hadj as [Hw1 _].
    apply syngraph_node_single, is_single_word_spec in Hw1, Hnode.
    assert (word1 r ∈ lemma_names synset) as (i & Hi)%list_elem_of_lookup
      by (apply elem_of_lemma_names; tauto).
    assert (word2 r ∈ lemma_names synset) as (j & Hj)%list_elem_of_lookup
      by (apply elem_of_lemma_names; tauto).
    apply Hnot. unfold nx.neighbors in Hnbrs.
    assert (nx.has_edge (syngraph synsets) (word1 r) (word2 r)) as (x & Hx & Hw).
    { apply has_edge_syngraph. exists synset, i, j. split_and!; try done.
      intros ->. congruence. }
    by simplify_eq.
Qed.

Lemma labels_sound_witness :
  run_negative ∈ yielded
    (create_dataset (get_syngraph_wordset [("noun", run_synsets)]) 1 1 zero_tape) ∧
  ∃ synsets, (pos run_negative, synsets) ∈ [("noun", run_synsets)] ∧
    (synonym run_negative = 1 →
       word1 run_negative ≠ word2 run_negative ∧
       ∃ synset, synset ∈ synsets ∧
         word1 run_negative ∈ synset ∧ word2 run_negative ∈ synset) ∧
    (synonym run_negative = 0 →
       ∀ synset, synset ∈ synsets →
         ¬ (word1 run_negative ∈ synset ∧ word2 run_negative ∈ synset)).
Proof.
  assert (run_negative ∈ yielded
    (create_dataset (get_syngraph_wordset [("noun", run_synsets)]) 1 1 zero_tape))
    as Hin by (apply (bool_decide_unpack _); vm_compute; exact I).
  split; [exact Hin|]. exact (labels_sound _ _ _ _ _ Hin).
Defined.

(** X15: within one graph, no word of a record of the train split is a
    word of a record of the test split. *)
Theorem splits_share_no_word ratio k c graph g r1 r2 :
  r1 ∈ yielded (dataset_of_graph ratio k c graph g) →
  r2 ∈ yielded (dataset_of_graph ratio k c graph g) →
  split r1 = "train" → split r2 = "test" →
  word1 r1 ≠ word1 r2 ∧ word1 r1 ≠ word2 r2 ∧
  word2 r1 ≠ word1 r2 ∧ word2 r1 ≠ word2 r2.
Proof.
  intros H1 H2 Htrain Htest.
  destruct (dataset_of_graph_post ratio k c graph g) as [Hall _].
  rewrite Forall_forall in Hall.
  destruct (Hall r1 H1) as (s & Hs & Hr1). destruct (Hall r2 H2) as (s' & Hs' & Hr2).
  pose proof (splits_as_unique _ _ _ _ _ Hs' Hs) as ->.
  assert (∀ r sp, emitted_by c graph s r → split r = sp →
    (sp = "train" → word1 r ∈ train_words s ∖ test_words s ∧
                    word2 r ∈ train_words s ∖ test_words s) ∧
    (sp = "test" → word1 r ∈ test_words s ∖ train_words s ∧
                   word2 r ∈ test_words s ∖ train_words s)) as Hside.
  { intros r sp (w2 & Hret & Hr)%emitted_by_inv <-.
    destruct (retained_edge _ _ _ _ _ _ _ Hs Hret) as (_ & Ha & Hb).
    destruct Hr as [[_ ->]|(_ & nbrs & _ & Hw3)]; [done|].
    apply elem_of_neg_words in Hw3 as (_ & _ & _ & Hc & Hd).
    split; intros Hsp.
    - destruct (Ha Hsp) as [Hw1 _], (Hc Hsp) as [Hin Hout].
      split; [done|]. by apply elem_of_difference.
    - destruct (Hb Hsp) as [Hw1 _], (Hd Hsp) as [Hin Hout].
      split; [done|]. by apply elem_of_difference. }
  destruct (proj1 (Hside r1 _ Hr1 Htrain) eq_refl)
    as [[Ha Ha']%elem_of_difference [Hb Hb']%elem_of_difference].
  destruct (proj2 (Hside r2 _ Hr2 Htest) eq_refl)
    as [[Hc Hc']%elem_of_difference [Hd Hd']%elem_of_difference].
  split_and!; congruence.
Qed.

(** * The default pipeline *)

Lemma get_synsets_default_keys all_synsets c synsets :
  (c, synsets) ∈ get_synsets all_synsets None →
  c ∈ ["verb"; "noun"; "adjective"] ∧ is_Some (dict_get weights c).
Proof.
  unfold get_synsets, default_part_of_speeches. simpl.
  rewrite !elem_of_cons, elem_of_nil.
  intros [[= -> _]|[[= -> _]|[[= -> _]|[]]]]; (split; [set_solver|by eexists]).
Qed.

(** X16: with the default parts of speech, whatever the corpus holds, every
    record is a verb, noun or adjective record, and the run ends in no
    exception but the [IndexError] of an exhausted pool; with no negatives
    asked for it always returns. *)
Theorem default_pipeline all_synsets ratio k g :
  let run := create_dataset
    (get_syngraph_wordset (get_synsets all_synsets None)) ratio k g in
  (∀ r, r ∈ yielded run → pos r ∈ ["verb"; "noun"; "adjective"]) ∧
  (∀ e, result run = Raised e → e = IndexError ∧ k ≠ 0).
Proof.
  split.
  - intros r (graph & s & Hin & _)%create_dataset_emitted.
    apply get_syngraph_wordset_elem in Hin as (synsets & Hin & _).
    by apply get_synsets_default_keys in Hin as [? _].
  - intros e He.
    pose proof (gen_exc_create_dataset
      (get_syngraph_wordset (get_synsets all_synsets None)) ratio k g) as Hexc.
    rewrite He in Hexc.
    destruct Hexc as [?|(c & graph & Hin & _ & Hnone & _)]; [done|].
    apply get_syngraph_wordset_elem in Hin as (synsets & Hin & _).
    apply get_synsets_default_keys in Hin as [_ [w Hw]]. congruence.
Qed.

(** * [get_subgraph] *)

Section subgraph_facts.
Implicit Types (G graph : nx.Graph) (a b u x : string) (nbunch subset acc : list string).

Lemma lookup_subgraph G nbunch a :
  nx.lookup (nx.subgraph G nbunch) a =
  if decide (a ∈ filter (λ n, n ∈ nx.nodes G) nbunch)
  then filter (λ nbr, nbr ∈ filter (λ n, n ∈ nx.nodes G) nbunch) <$> nx.lookup G a
  else None.
Proof.
  unfold nx.subgraph. generalize (filter (λ n, n ∈ nx.nodes G) nbunch). intros ok.
  unfold nx.Graph in *.
  induction G as [|[k nbrs] G IH]; simpl; [by case_decide|].
  destruct (decide (k ∈ ok)) as [Hk|Hk].
  - rewrite filter_cons_True by done. rewrite fmap_cons. cbn [nx.lookup fst snd].
    destruct (decide (k = a)) as [->|]; [by destruct (decide (a ∈ ok))|done].
  - rewrite filter_cons_False by done. rewrite IH.
    destruct (decide (k = a)) as [->|]; [by destruct (decide (a ∈ ok))|done].
Qed.

Lemma nodes_subgraph G nbunch x :
  x ∈ nx.nodes (nx.subgraph G nbunch) ↔ x ∈ nx.nodes G ∧ x ∈ nbunch.
Proof.
  rewrite <- (lookup_nodes (nx.subgraph G nbunch)), lookup_subgraph.
  case_decide as Hx.
  - apply list_elem_of_filter in Hx as [Hx1 Hx2].
    rewrite fmap_is_Some, lookup_nodes. tauto.
  - split; [by intros [? [=]]|]. intros [Hx1 Hx2]. destruct Hx.
    by apply list_elem_of_filter.
Qed.

Lemma has_edge_subgraph G nbunch a b :
  nx.has_edge (nx.subgraph G nbunch) a b ↔
  nx.has_edge G a b ∧ a ∈ nbunch ∧ b ∈ nbunch ∧ b ∈ nx.nodes G.
Proof.
  unfold nx.has_edge. setoid_rewrite lookup_subgraph. split.
  - intros (nbrs & Hl & Hb). case_decide as Ha; [|done].
    apply list_elem_of_filter in Ha as [_ Ha].
    destruct (nx.lookup G a) as [x|]; simplify_eq/=.
    apply list_elem_of_filter in Hb as [[??]%list_elem_of_filter ?]. eauto 10.
  - intros ((nbrs & Hl & Hb) & Ha & Hb' & Hbn).
    assert (a ∈ nx.nodes G) as Han by (apply lookup_nodes; by rewrite Hl).
    rewrite decide_True by (by apply list_elem_of_filter).
    rewrite Hl. simpl. eexists; split; [done|].
    apply list_elem_of_filter. split; [|done]. by apply list_elem_of_filter.
Qed.

Lemma subgraph_nodes_returned graph subset acc nodes :
  subgraph_nodes graph subset acc = Returned nodes →
  (∀ u, u ∈ subset → u ∈ nx.nodes graph) ∧
  ∀ x, x ∈ nodes ↔ x ∈ acc ∨ in_region graph subset x.
Proof.
  revert acc. induction subset as [|u subset IH]; intros acc; simpl.
  - intros [= <-]. split; [by intros ? ?%elem_of_nil|].
    intros x. unfold in_region. set_solver.
  - destruct (nx.neighbors graph u) as [nbrs|] eqn:Hu; [|done].
    intros [Hall Hx]%IH. split.
    + intros u' [->|?]%elem_of_cons; [|by apply Hall].
      apply lookup_nodes. unfold nx.neighbors in Hu. by rewrite Hu.
    + intros x. rewrite Hx, elem_of_app. cbn [app]. rewrite (elem_of_cons nbrs).
      unfold in_region, nx.has_edge. unfold nx.neighbors in Hu.
      split.
      * intros [[?|[->|Hn]]|[?|(u' & ? & ?)]]; [by left|right; left; left| |
          right; left; by right|right; right; exists u'; split; [by right|done]].
        right. right. exists u. split; [left|by exists nbrs].
      * intros [?|[[->|?]%elem_of_cons|(u' & [->|?]%elem_of_cons & Hadj)]];
          [by left; left|by left; right; left|by right; left| |
           right; right; by exists u'].
        destruct Hadj as (nbrs' & ? & ?). simplify_eq. left. right. by right.
Qed.

Lemma subgraph_nodes_raised graph subset acc e :
  subgraph_nodes graph subset acc = Raised e →
  ∃ l1 u l2, subset = l1 ++ u :: l2 ∧ e = NetworkXError u ∧
    (u ∉ nx.nodes graph) ∧ ∀ x, x ∈ l1 → x ∈ nx.nodes graph.
Proof.
  revert acc. induction subset as [|u subset IH]; intros acc; simpl; [done|].
  destruct (nx.neighbors graph u) as [nbrs|] eqn:Hu.
  - intros (l1 & u' & l2 & -> & -> & Hnot & Hall)%IH.
    exists (u :: l1), u', l2. split_and!; [done..|].
    intros x [->|?]%elem_of_cons; [|by apply Hall].
    apply lookup_nodes. unfold nx.neighbors in Hu. by rewrite Hu.
  - intros [= <-]. exists [], u, subset. split_and!; [done|done| |].
    + by apply lookup_None_nodes.
    + by intros ? ?%elem_of_nil.
Qed.

End subgraph_facts.

(** X17: [get_subgraph] returns exactly when every word of [subset] is a
    node of the graph; otherwise it raises [NetworkXError] for the first
    word of [subset] that is not. *)
Theorem get_subgraph_error graph subset :
  ((∃ H, get_subgraph graph subset = Returned H) ↔
   ∀ u, u ∈ subset → u ∈ nx.nodes graph) ∧
  (∀ e, get_subgraph graph subset = Raised e →
   ∃ l1 u l2, subset = l1 ++ u :: l2 ∧ e = NetworkXError u ∧
     (u ∉ nx.nodes graph) ∧ ∀ x, x ∈ l1 → x ∈ nx.nodes graph).
Proof.
  unfold get_subgraph.
  destruct (subgraph_nodes graph subset []) as [nodes|e] eqn:Hn.
  - apply subgraph_nodes_returned in Hn as [Hall _].
    split; [|done]. split; [done|eauto].
  - apply subgraph_nodes_raised in Hn as (l1 & u & l2 & -> & -> & Hnot & Hall).
    split.
    + split; [by intros [? [=]]|]. intros Hsub. destruct Hnot. apply Hsub.
      apply elem_of_app. right. left.
    + intros e [= <-]. by exists l1, u, l2.
Qed.

(** X18: the graph [get_subgraph] returns is the graph induced by [subset]
    and the neighbours of its words: its nodes are those nodes, and two of
    them are neighbours in it exactly when they are in the whole graph.  A
    word of [subset] keeps every neighbour that is a node. *)
Theorem get_subgraph_induced graph subset H :
  get_subgraph graph subset = Returned H →
  (∀ x, x ∈ nx.nodes H ↔ x ∈ nx.nodes graph ∧ in_region graph subset x) ∧
  (∀ a b, nx.has_edge H a b ↔
     nx.has_edge graph a b ∧ in_region graph subset a ∧
     in_region graph subset b ∧ b ∈ nx.nodes graph) ∧
  (∀ u b, u ∈ subset → b ∈ nx.nodes graph →
     (nx.has_edge H u b ↔ nx.has_edge graph u b)).
Proof.
  unfold get_subgraph.
  destruct (subgraph_nodes graph subset []) as [nodes|e] eqn:Hn; [|done].
  intros [= <-]. apply subgraph_nodes_returned in Hn as [Hall Hx].
  assert (∀ x, x ∈ nodes ↔ in_region graph subset x) as Hreg.
  { intros x. rewrite Hx. split; [|by right].
    intros [Hnil|?]; [|done]. by apply elem_of_nil in Hnil. }
  split_and!.
  - intros x. by rewrite nodes_subgraph, Hreg.
  - intros a b. by rewrite has_edge_subgraph, !Hreg.
  - intros u b Hu Hb. rewrite has_edge_subgraph, !Hreg. split; [tauto|].
    intros Hadj. split_and!; [done|by left| |done]. right. by exists u.
Qed.

Lemma splits_share_no_word_witness :
  big_positive ∈ yielded (dataset_of_graph 0.5 1 "noun" (syngraph pairs_synsets) zero_tape) ∧
  small_positive ∈ yielded (dataset_of_graph 0.5 1 "noun" (syngraph pairs_synsets) zero_tape) ∧
  split big_positive = "train" ∧ split small_positive = "test" ∧
  word1 big_positive ≠ word1 small_positive ∧ word1 big_positive ≠ word2 small_positive ∧
  word2 big_positive ≠ word1 small_positive ∧ word2 big_positive ≠ word2 small_positive.
Proof.
  assert (big_positive ∈ yielded
    (dataset_of_graph 0.5 1 "noun" (syngraph pairs_synsets) zero_tape)) as H1
    by (apply (bool_decide_unpack _); vm_compute; exact I).
  assert (small_positive ∈ yielded
    (dataset_of_graph 0.5 1 "noun" (syngraph pairs_synsets) zero_tape)) as H2
    by (apply (bool_decide_unpack _); vm_compute; exact I).
  split_and!; [exact H1|exact H2|reflexivity|reflexivity|..];
    apply (splits_share_no_word 0.5 1 "noun" (syngraph pairs_synsets) zero_tape
             big_positive small_positive H1 H2 eq_refl eq_refl).
Defined.

Lemma default_pipeline_witness :
  (run_negative ∈ yielded (create_dataset
     (get_syngraph_wordset (get_synsets run_corpus None)) 1 1 zero_tape) ∧
   pos run_negative ∈ ["verb"; "noun"; "adjective"]) ∧
  (result (create_dataset
     (get_syngraph_wordset (get_synsets change_corpus None)) 1 1 zero_tape)
     = Raised IndexError ∧
   IndexError = IndexError ∧ 1 ≠ 0).
Proof.
  assert (run_negative ∈ yielded (create_dataset
     (get_syngraph_wordset (get_synsets run_corpus None)) 1 1 zero_tape)) as Hin
    by (apply (bool_decide_unpack _); vm_compute; exact I).
  assert (result (create_dataset
     (get_syngraph_wordset (get_synsets change_corpus None)) 1 1 zero_tape)
     = Raised IndexError) as He by (vm_compute; reflexivity).
  split; (split; [eassumption|]).
  - exact (proj1 (default_pipeline run_corpus 1 1 zero_tape) _ Hin).
  - exact (proj2 (default_pipeline change_corpus 1 1 zero_tape) _ He).
Defined.

Lemma get_subgraph_error_witness :
  get_subgraph (syngraph change_synsets) default_subset
    = Raised (NetworkXError "buy") ∧
  ∃ l1 u l2, default_subset = l1 ++ u :: l2 ∧
    NetworkXError "buy" = NetworkXError u ∧
    (u ∉ nx.nodes (syngraph change_synsets)) ∧
    ∀ x, x ∈ l1 → x ∈ nx.nodes (syngraph change_synsets).
Proof.
  assert (get_subgraph (syngraph change_synsets) default_subset
    = Raised (NetworkXError "buy")) as He by (vm_compute; reflexivity).
  split; [exact He|].
  exact (proj2 (get_subgraph_error (syngraph change_synsets) default_subset) _ He).
Defined.

Lemma get_subgraph_induced_witness :
  get_subgraph (syngraph change_synsets) ["transform"]
    = Returned [("change", ["transform"]); ("transform", ["change"])] ∧
  (∀ u b, u ∈ ["transform"] → b ∈ nx.nodes (syngraph change_synsets) →
     (nx.has_edge [("change", ["transform"]); ("transform", ["change"])] u b ↔
      nx.has_edge (syngraph change_synsets) u b)).
Proof.
  assert (get_subgraph (syngraph change_synsets) ["transform"]
    = Returned [("change", ["transform"]); ("transform", ["change"])]) as HH
    by (vm_compute; reflexivity).
  split; [exact HH|].
  exact (proj2 (proj2 (get_subgraph_induced _ _ _ HH))).
Defined.
